(** * You're Not Alone: check-in client and view

    A shallow embedding of the TypeScript sources

    - [webSocketClient.ts]: class [WebSocketClient] (connection handling,
      the store of received check-ins, the cooldown gate, message signing);
    - [secondaryCheckInView.ts]: class [SecondaryCheckInView] (the list of
      check-ins shown in the side bar).

    Conventions.  A JavaScript string is the list of its UTF-16 code units.
    Instants are integers (milliseconds since the epoch, what [Date.now()]
    returns); a number that may be [NaN] is an [option Z] with [None] for
    [NaN].  An object is a record of its fields, a method is a function
    from the object (and the values it reads from the environment, such as
    the clock) to the new object and the list of effects it performs. *)

From Stdlib Require Import ZArith QArith Qminmax Qpower Lia Lqa String Ascii DecimalString.
From stdpp Require Import base option list sorting gmap.

Local Open Scope Z_scope.

(** ** JavaScript strings and numbers *)

Definition code_unit := N.
Definition jsstring := list code_unit.

(** An ASCII literal as a JavaScript string. *)
Definition js (s : string) : jsstring :=
  N_of_ascii <$> list_ascii_of_string s.

(** [s.length] *)
Definition js_length (s : jsstring) : Z := Z.of_nat (length s).

(** [s.substring(start, end)]: both indices are clamped to [0, s.length]
    and swapped when [start > end]. *)
Definition substring (s : jsstring) (istart iend : Z) : jsstring :=
  let len := js_length s in
  let finalStart := Z.min (Z.max istart 0) len in
  let finalEnd := Z.min (Z.max iend 0) len in
  let from := Z.min finalStart finalEnd in
  let to := Z.max finalStart finalEnd in
  drop (Z.to_nat from) (take (Z.to_nat to) s).

(** [a > b] on numbers: false as soon as one side is [NaN]. *)
Definition num_gt (a b : option Z) : bool :=
  match a, b with
  | Some x, Some y => bool_decide (y < x)
  | _, _ => false
  end.

(** [a - b] on numbers. *)
Definition num_sub (a b : option Z) : option Z :=
  match a, b with
  | Some x, Some y => Some (x - y)
  | _, _ => None
  end.

(** ** JavaScript arrays *)

(** [arr.findIndex(p)]; [None] stands for [-1]. *)
Fixpoint findIndex {A} (p : A → bool) (arr : list A) : option nat :=
  match arr with
  | [] => None
  | x :: rest => if p x then Some 0%nat else S <$> findIndex p rest
  end.

(** [arr.some(p)] *)
Definition some {A} (p : A → bool) (arr : list A) : bool := existsb p arr.

(** [arr.sort(compare)].  ECMAScript asks for a stable sort and leaves the
    algorithm open; a comparator result of [NaN] counts as [0].  Stable
    insertion is one such algorithm, and for a consistent comparator every
    conforming one returns the same array. *)
Definition cmp_le0 (r : option Z) : bool :=
  match r with
  | Some v => bool_decide (v ≤ 0)
  | None => true
  end.

Fixpoint sort_insert {A} (compare : A → A → option Z) (x : A) (arr : list A) : list A :=
  match arr with
  | [] => [x]
  | y :: rest =>
      if cmp_le0 (compare x y) then x :: y :: rest
      else y :: sort_insert compare x rest
  end.

Definition sort {A} (compare : A → A → option Z) (arr : list A) : list A :=
  foldr (sort_insert compare) [] arr.

(** ** Messages *)

(** [NewCheckInMessage]; the [type] field is the constant ['new_checkin']. *)
Record NewCheckInMessage := {
  username : jsstring;
  tags : list jsstring;
  message : jsstring;
  timestamp : jsstring;
  avatarUrl : option jsstring;
  snippet : option jsstring;
}.

(** [CheckInData], the view's copy of a check-in. *)
Record CheckInData := {
  cd_username : jsstring;
  cd_tags : list jsstring;
  cd_message : jsstring;
  cd_timestamp : jsstring;
  cd_avatarUrl : option jsstring;
  cd_snippet : option jsstring;
}.

(** The copy the view's [onMessageReceived] listener makes. *)
Definition toCheckInData (m : NewCheckInMessage) : CheckInData :=
  {| cd_username := username m; cd_tags := tags m; cd_message := message m;
     cd_timestamp := timestamp m; cd_avatarUrl := avatarUrl m;
     cd_snippet := snippet m |}.

(** ** The store of received check-ins *)

Section Buffers.

(** [new Date(s).getTime()], [None] for an invalid date ([NaN]). *)
Variable getTime : jsstring → option Z.

(** [WebSocketClient.storeCheckIn], on the array [allReceivedCheckIns]. *)
Definition storeCheckIn (allReceivedCheckIns : list NewCheckInMessage)
    (checkIn : NewCheckInMessage) : list NewCheckInMessage :=
  match findIndex (λ c, bool_decide (username c = username checkIn))
          allReceivedCheckIns with
  | Some existingIndex =>
      match allReceivedCheckIns !! existingIndex with
      | Some existing =>
          let existingTimestamp := getTime (timestamp existing) in
          let newTimestamp := getTime (timestamp checkIn) in
          if num_gt newTimestamp existingTimestamp
          then <[existingIndex := checkIn]> allReceivedCheckIns
          else allReceivedCheckIns
      | None => allReceivedCheckIns
      end
  | None => allReceivedCheckIns ++ [checkIn]
  end.

(** *** The side-bar view: [SecondaryCheckInView] *)

(** The fields of the view that [addCheckIn] and [updateView] touch.
    [_view] is [None] while the webview is unresolved, and otherwise
    holds its [visible] flag. *)
Record SecondaryCheckInView := {
  _view : option bool;
  checkIns : list CheckInData;
  webviewReady : bool;
  pendingCheckIns : list CheckInData;
  view_onlineUsersCount : Z;
  newCheckInsCount : nat;
}.

Inductive ViewEffect :=
| PostUpdateCheckIns (sortedCheckIns : list CheckInData)
| PostUpdateOnlineUsers (count : Z)
| ExecuteNotifyNewCheckIn
| FireCheckInsCountChanged (count : nat).

Definition set_checkIns (v : SecondaryCheckInView) (l : list CheckInData) :=
  {| _view := _view v; checkIns := l; webviewReady := webviewReady v;
     pendingCheckIns := pendingCheckIns v;
     view_onlineUsersCount := view_onlineUsersCount v;
     newCheckInsCount := newCheckInsCount v |}.

Definition set_pendingCheckIns (v : SecondaryCheckInView) (l : list CheckInData) :=
  {| _view := _view v; checkIns := checkIns v; webviewReady := webviewReady v;
     pendingCheckIns := l;
     view_onlineUsersCount := view_onlineUsersCount v;
     newCheckInsCount := newCheckInsCount v |}.

Definition set_newCheckInsCount (v : SecondaryCheckInView) (n : nat) :=
  {| _view := _view v; checkIns := checkIns v; webviewReady := webviewReady v;
     pendingCheckIns := pendingCheckIns v;
     view_onlineUsersCount := view_onlineUsersCount v;
     newCheckInsCount := n |}.

(** [isVisible()] *)
Definition isVisible (v : SecondaryCheckInView) : bool :=
  match _view v with
  | Some visible => visible
  | None => false
  end.

(** [this._view && this.webviewReady] *)
Definition viewIsReady (v : SecondaryCheckInView) : bool :=
  match _view v with
  | Some _ => webviewReady v
  | None => false
  end.

(** [updateOnlineUsersCount()] *)
Definition updateOnlineUsersCount (v : SecondaryCheckInView) : list ViewEffect :=
  if viewIsReady v then [PostUpdateOnlineUsers (view_onlineUsersCount v)] else [].

(** The comparator of [updateView]: [time(b) - time(a)]. *)
Definition newestFirst (a b : CheckInData) : option Z :=
  num_sub (getTime (cd_timestamp b)) (getTime (cd_timestamp a)).

(** The list [updateView] posts: [[...this.checkIns].sort(...)]. *)
Definition sortedCheckIns (v : SecondaryCheckInView) : list CheckInData :=
  sort newestFirst (checkIns v).

(** One round of the [forEach] in the [else] branch of [updateView]. *)
Definition pushPending (pending : list CheckInData) (checkIn : CheckInData) :=
  if some (λ c, bool_decide (cd_username c = cd_username checkIn)) pending
  then pending
  else pending ++ [checkIn].

(** [updateView()] *)
Definition updateView (v : SecondaryCheckInView)
    : SecondaryCheckInView * list ViewEffect :=
  if viewIsReady v then
    (set_pendingCheckIns v [],
     PostUpdateCheckIns (sortedCheckIns v) :: updateOnlineUsersCount v)
  else if negb (webviewReady v) && bool_decide (0 < length (checkIns v))%nat then
    (set_pendingCheckIns v (foldl pushPending (pendingCheckIns v) (checkIns v)), [])
  else (v, []).

(** The tail of [addCheckIn], after the list was changed. *)
Definition addCheckIn_notify (v : SecondaryCheckInView) (checkIn : CheckInData)
    : SecondaryCheckInView * list ViewEffect :=
  let hidden := negb (isVisible v) in
  let v1 := if hidden then set_newCheckInsCount v (S (newCheckInsCount v)) else v in
  let e1 := if hidden then [ExecuteNotifyNewCheckIn] else [] in
  let e2 := [FireCheckInsCountChanged (length (checkIns v1))] in
  if webviewReady v1 then
    let '(v2, e3) := updateView v1 in (v2, e1 ++ e2 ++ e3)
  else
    (set_pendingCheckIns v1 (pushPending (pendingCheckIns v1) checkIn), e1 ++ e2).

(** [addCheckIn(checkIn)] *)
Definition addCheckIn (v : SecondaryCheckInView) (checkIn : CheckInData)
    : SecondaryCheckInView * list ViewEffect :=
  match findIndex (λ c, bool_decide (cd_username c = cd_username checkIn))
          (checkIns v) with
  | Some existingIndex =>
      match checkIns v !! existingIndex with
      | Some existing =>
          let existingTimestamp := getTime (cd_timestamp existing) in
          let newTimestamp := getTime (cd_timestamp checkIn) in
          if num_gt newTimestamp existingTimestamp
          then addCheckIn_notify
                 (set_checkIns v (<[existingIndex := checkIn]> (checkIns v))) checkIn
          else (v, [])
      | None => (v, [])
      end
  | None =>
      let pushed := checkIns v ++ [checkIn] in
      let limited :=
        if bool_decide (100 < length pushed)%nat then take 100 pushed else pushed in
      addCheckIn_notify (set_checkIns v limited) checkIn
  end.

End Buffers.

(** ** The client: [WebSocketClient] *)

(** [WebSocket.readyState] *)
Inductive ReadyState := CONNECTING | OPEN | CLOSING | CLOSED.

Global Instance ReadyState_eq_dec : EqDecision ReadyState.
Proof. solve_decision. Defined.

(** [CheckInMessage], what the client sends; [signMessage] takes it as
    [any], so the [type] field is a string like the others. *)
Record CheckInMessage := {
  ci_type : jsstring;
  ci_username : jsstring;
  ci_tags : list jsstring;
  ci_message : jsstring;
  ci_timestamp : jsstring;
  ci_avatarUrl : option jsstring;
  ci_snippet : option jsstring;
  ci_token : option jsstring;
  ci_signature : option jsstring;
  ci_signatureTimestamp : option jsstring;
}.

(** The object [cleanMessage] that [signMessage] serialises. *)
Record CleanMessage := {
  clean_type : jsstring;
  clean_username : jsstring;
  clean_tags : list jsstring;
  clean_message : jsstring;
  clean_timestamp : jsstring;
  clean_avatarUrl : option jsstring;
  clean_snippet : option jsstring;
}.

(** The union [Message] of the declared message types. *)
Inductive Message :=
| Msg_checkin (m : CheckInMessage)
| Msg_new_checkin (m : NewCheckInMessage)
| Msg_online_users (count : Z)
| Msg_error (text : jsstring).

(** What [JSON.parse(data.toString()) as Message] followed by the read of
    [message.type] comes to: a [SyntaxError] (or the [TypeError] of
    reading [type] off [null]), a value of one of the declared message
    types, or some other value, whose [type] is none of the handled ones. *)
Inductive Parsed :=
| ParseThrows
| ParsedMessage (m : Message)
| ParsedOther.

(** The callbacks the client hands to [setTimeout] and [setInterval]. *)
Inductive Callback :=
| CbConnectionTimeout
| CbReconnect
| CbRetryConnect
| CbHistoryIdle
| CbHistoryCeiling
| CbLocalEcho (m : NewCheckInMessage)
| CbCooldownTick.

Inductive Effect :=
| ConsoleLog
| ConsoleError
| ShowErrorMessage
| FireConnectionStatusChanged (connected : bool)
| FireMessageReceived (m : NewCheckInMessage)
| FireHistoryReceived
| FireOnlineUsersChanged (count : Z)
| FireCooldownChanged (remaining : Z)
| GetAuthToken
| NewWebSocket (address : jsstring) (token : option jsstring)
| SocketRemoveAllListeners
| SocketClose
| SocketSend (m : CheckInMessage)
| SetTimeout (cb : Callback) (delay : Q)
| ClearTimeout (cb : Callback)
| SetInterval (cb : Callback) (delay : Q)
| ClearInterval (cb : Callback).

(** The fields of the class.  [socket] holds the [readyState] of
    [this.socket], [None] for [null].  [messageCount] and [historyTimeout]
    are the variables the message handler closes over ([historyTimeout] is
    [true] when it holds a timer).  The snippet cache is left to the
    environment: [getRandomSnippet()] is an input of [sendCheckIn].
    [reconnectInterval] is a rational number: the values it takes as a
    double (5000, 7500, 11250, 16875, 25312.5, 30000, and the products
    37968.75 and 45000 that the cap cuts down) are all exact. *)
Record WebSocketClient := {
  socket : option ReadyState;
  reconnectInterval : Q;
  url : jsstring;
  initialHistoryReceived : bool;
  allReceivedCheckIns : list NewCheckInMessage;
  receivingInitialHistory : bool;
  lastHistoryMessageTime : Z;
  onlineUsersCount : Z;
  lastCheckInTime : Z;
  cooldownPeriodMs : Z;
  autoReconnect : bool;
  messageCount : nat;
  historyTimeout : bool;
}.

Definition set_socket (c : WebSocketClient) (x : option ReadyState) : WebSocketClient :=
  {| socket := x;
     reconnectInterval := reconnectInterval c;
     url := url c;
     initialHistoryReceived := initialHistoryReceived c;
     allReceivedCheckIns := allReceivedCheckIns c;
     receivingInitialHistory := receivingInitialHistory c;
     lastHistoryMessageTime := lastHistoryMessageTime c;
     onlineUsersCount := onlineUsersCount c;
     lastCheckInTime := lastCheckInTime c;
     cooldownPeriodMs := cooldownPeriodMs c;
     autoReconnect := autoReconnect c;
     messageCount := messageCount c;
     historyTimeout := historyTimeout c |}.

Definition set_reconnectInterval (c : WebSocketClient) (x : Q) : WebSocketClient :=
  {| socket := socket c;
     reconnectInterval := x;
     url := url c;
     initialHistoryReceived := initialHistoryReceived c;
     allReceivedCheckIns := allReceivedCheckIns c;
     receivingInitialHistory := receivingInitialHistory c;
     lastHistoryMessageTime := lastHistoryMessageTime c;
     onlineUsersCount := onlineUsersCount c;
     lastCheckInTime := lastCheckInTime c;
     cooldownPeriodMs := cooldownPeriodMs c;
     autoReconnect := autoReconnect c;
     messageCount := messageCount c;
     historyTimeout := historyTimeout c |}.

Definition set_initialHistoryReceived (c : WebSocketClient) (x : bool) : WebSocketClient :=
  {| socket := socket c;
     reconnectInterval := reconnectInterval c;
     url := url c;
     initialHistoryReceived := x;
     allReceivedCheckIns := allReceivedCheckIns c;
     receivingInitialHistory := receivingInitialHistory c;
     lastHistoryMessageTime := lastHistoryMessageTime c;
     onlineUsersCount := onlineUsersCount c;
     lastCheckInTime := lastCheckInTime c;
     cooldownPeriodMs := cooldownPeriodMs c;
     autoReconnect := autoReconnect c;
     messageCount := messageCount c;
     historyTimeout := historyTimeout c |}.

Definition set_allReceivedCheckIns (c : WebSocketClient) (x : list NewCheckInMessage) : WebSocketClient :=
  {| socket := socket c;
     reconnectInterval := reconnectInterval c;
     url := url c;
     initialHistoryReceived := initialHistoryReceived c;
     allReceivedCheckIns := x;
     receivingInitialHistory := receivingInitialHistory c;
     lastHistoryMessageTime := lastHistoryMessageTime c;
     onlineUsersCount := onlineUsersCount c;
     lastCheckInTime := lastCheckInTime c;
     cooldownPeriodMs := cooldownPeriodMs c;
     autoReconnect := autoReconnect c;
     messageCount := messageCount c;
     historyTimeout := historyTimeout c |}.

Definition set_receivingInitialHistory (c : WebSocketClient) (x : bool) : WebSocketClient :=
  {| socket := socket c;
     reconnectInterval := reconnectInterval c;
     url := url c;
     initialHistoryReceived := initialHistoryReceived c;
     allReceivedCheckIns := allReceivedCheckIns c;
     receivingInitialHistory := x;
     lastHistoryMessageTime := lastHistoryMessageTime c;
     onlineUsersCount := onlineUsersCount c;
     lastCheckInTime := lastCheckInTime c;
     cooldownPeriodMs := cooldownPeriodMs c;
     autoReconnect := autoReconnect c;
     messageCount := messageCount c;
     historyTimeout := historyTimeout c |}.

Definition set_lastHistoryMessageTime (c : WebSocketClient) (x : Z) : WebSocketClient :=
  {| socket := socket c;
     reconnectInterval := reconnectInterval c;
     url := url c;
     initialHistoryReceived := initialHistoryReceived c;
     allReceivedCheckIns := allReceivedCheckIns c;
     receivingInitialHistory := receivingInitialHistory c;
     lastHistoryMessageTime := x;
     onlineUsersCount := onlineUsersCount c;
     lastCheckInTime := lastCheckInTime c;
     cooldownPeriodMs := cooldownPeriodMs c;
     autoReconnect := autoReconnect c;
     messageCount := messageCount c;
     historyTimeout := historyTimeout c |}.

Definition set_onlineUsersCount (c : WebSocketClient) (x : Z) : WebSocketClient :=
  {| socket := socket c;
     reconnectInterval := reconnectInterval c;
     url := url c;
     initialHistoryReceived := initialHistoryReceived c;
     allReceivedCheckIns := allReceivedCheckIns c;
     receivingInitialHistory := receivingInitialHistory c;
     lastHistoryMessageTime := lastHistoryMessageTime c;
     onlineUsersCount := x;
     lastCheckInTime := lastCheckInTime c;
     cooldownPeriodMs := cooldownPeriodMs c;
     autoReconnect := autoReconnect c;
     messageCount := messageCount c;
     historyTimeout := historyTimeout c |}.

Definition set_lastCheckInTime (c : WebSocketClient) (x : Z) : WebSocketClient :=
  {| socket := socket c;
     reconnectInterval := reconnectInterval c;
     url := url c;
     initialHistoryReceived := initialHistoryReceived c;
     allReceivedCheckIns := allReceivedCheckIns c;
     receivingInitialHistory := receivingInitialHistory c;
     lastHistoryMessageTime := lastHistoryMessageTime c;
     onlineUsersCount := onlineUsersCount c;
     lastCheckInTime := x;
     cooldownPeriodMs := cooldownPeriodMs c;
     autoReconnect := autoReconnect c;
     messageCount := messageCount c;
     historyTimeout := historyTimeout c |}.

Definition set_messageCount (c : WebSocketClient) (x : nat) : WebSocketClient :=
  {| socket := socket c;
     reconnectInterval := reconnectInterval c;
     url := url c;
     initialHistoryReceived := initialHistoryReceived c;
     allReceivedCheckIns := allReceivedCheckIns c;
     receivingInitialHistory := receivingInitialHistory c;
     lastHistoryMessageTime := lastHistoryMessageTime c;
     onlineUsersCount := onlineUsersCount c;
     lastCheckInTime := lastCheckInTime c;
     cooldownPeriodMs := cooldownPeriodMs c;
     autoReconnect := autoReconnect c;
     messageCount := x;
     historyTimeout := historyTimeout c |}.

Definition set_historyTimeout (c : WebSocketClient) (x : bool) : WebSocketClient :=
  {| socket := socket c;
     reconnectInterval := reconnectInterval c;
     url := url c;
     initialHistoryReceived := initialHistoryReceived c;
     allReceivedCheckIns := allReceivedCheckIns c;
     receivingInitialHistory := receivingInitialHistory c;
     lastHistoryMessageTime := lastHistoryMessageTime c;
     onlineUsersCount := onlineUsersCount c;
     lastCheckInTime := lastCheckInTime c;
     cooldownPeriodMs := cooldownPeriodMs c;
     autoReconnect := autoReconnect c;
     messageCount := messageCount c;
     historyTimeout := x |}.

(** [s.includes(needle)] *)
Fixpoint startsWith (needle s : jsstring) : bool :=
  match needle, s with
  | [], _ => true
  | a :: needle', b :: s' => bool_decide (a = b) && startsWith needle' s'
  | _ :: _, [] => false
  end.

Fixpoint includes (s needle : jsstring) : bool :=
  startsWith needle s ||
  match s with
  | [] => false
  | _ :: s' => includes s' needle
  end.

(** [n.toString()] for an integer [n] *)
Definition numberToString (n : Z) : jsstring :=
  js (DecimalString.NilZero.string_of_int (Z.to_int n)).

(** [config.json], of which the client reads two entries. *)
Record Config := {
  cooldownPeriod_minutes : Z;
  signing_secret : jsstring;
}.

(** The object the constructor leaves (with [autoConnect = false]). *)
Definition newWebSocketClient (config : Config) (address : jsstring) : WebSocketClient :=
  {| socket := None;
     reconnectInterval := 5000;
     url := address;
     initialHistoryReceived := false;
     allReceivedCheckIns := [];
     receivingInitialHistory := false;
     lastHistoryMessageTime := 0;
     onlineUsersCount := 0;
     lastCheckInTime := 0;
     cooldownPeriodMs := cooldownPeriod_minutes config * 60 * 1000;
     autoReconnect := true;
     messageCount := 0;
     historyTimeout := false |}.

(** *** Cooldown *)

(** [canCheckIn()], with [now] the value of [Date.now()]. *)
Definition canCheckIn (c : WebSocketClient) (now : Z) : bool :=
  bool_decide (cooldownPeriodMs c ≤ now - lastCheckInTime c).

(** [getRemainingCooldownTime()] *)
Definition getRemainingCooldownTime (c : WebSocketClient) (now : Z) : Z :=
  let elapsed := now - lastCheckInTime c in
  if bool_decide (cooldownPeriodMs c ≤ elapsed) then 0
  else cooldownPeriodMs c - elapsed.

(** [startCooldownTimer()]; it reads the clock twice. *)
Definition startCooldownTimer (c : WebSocketClient) (now1 now2 : Z) : list Effect :=
  if bool_decide (getRemainingCooldownTime c now1 ≤ 0) then []
  else [FireCooldownChanged (getRemainingCooldownTime c now2);
        SetInterval CbCooldownTick 1000].

(** The body of the interval that [startCooldownTimer] sets up. *)
Definition cooldownTick (c : WebSocketClient) (now : Z) : list Effect :=
  let remaining := getRemainingCooldownTime c now in
  FireCooldownChanged remaining ::
  (if bool_decide (remaining ≤ 0) then [ClearInterval CbCooldownTick] else []).

(** *** Signing *)

Section Signing.

(** [JSON.stringify] on the clean message, and
    [crypto.createHmac('sha256', key).update(data).digest('hex')]. *)
Variable JSON_stringify : CleanMessage → jsstring.
Variable hmac_sha256_hex : jsstring → jsstring → jsstring.
Variable config : Config.

Definition cleanMessage (m : CheckInMessage) : CleanMessage :=
  {| clean_type := ci_type m;
     clean_username := ci_username m;
     clean_tags := ci_tags m;
     clean_message := ci_message m;
     clean_timestamp := ci_timestamp m;
     clean_avatarUrl := ci_avatarUrl m;
     clean_snippet := ci_snippet m |}.

(** [signMessage(message)], with [now] the value of [Date.now()];
    returns [(signature, timestamp)]. *)
Definition signMessage (m : CheckInMessage) (now : Z) : jsstring * jsstring :=
  let timestamp := numberToString now in
  let messageStr := JSON_stringify (cleanMessage m) in
  let dataToSign := messageStr ++ timestamp in
  let signature := hmac_sha256_hex (signing_secret config) dataToSign in
  (signature, timestamp).

End Signing.

(** *** Connecting *)

(** The part of [connect()] after the guard on [this.socket]. *)
Definition connect_begin (c : WebSocketClient) : WebSocketClient * list Effect :=
  (set_receivingInitialHistory (set_initialHistoryReceived c false) true,
   [ConsoleLog; GetAuthToken]).

(** [connect()] up to the call of [getAuthToken()]. *)
Definition connect (c : WebSocketClient) : WebSocketClient * list Effect :=
  match socket c with
  | Some CONNECTING => (c, [ConsoleLog])
  | Some OPEN => (c, [ConsoleLog; FireConnectionStatusChanged true])
  | Some readyState =>
      let closing :=
        if bool_decide (readyState ≠ CLOSED)
        then [SocketRemoveAllListeners; SocketClose] else [] in
      let '(c', effects) := connect_begin (set_socket c None) in
      (c', closing ++ effects)
  | None => connect_begin c
  end.

(** The callback of [getAuthToken().then] in [connect()].  [constructed]
    tells whether [new WebSocket(connectionUrl)] returned; when it throws,
    the inner [catch] runs. *)
Definition connect_withToken (c : WebSocketClient) (token : option jsstring)
    (constructed : bool) : WebSocketClient * list Effect :=
  if constructed then
    (set_historyTimeout (set_messageCount (set_socket c (Some CONNECTING)) 0) false,
     [ConsoleLog; NewWebSocket (url c) token;
      SetTimeout CbConnectionTimeout 10000;
      SetTimeout CbHistoryCeiling 3000])
  else
    (c, [ConsoleLog; ConsoleError; FireConnectionStatusChanged false] ++
        (if autoReconnect c then [SetTimeout CbRetryConnect (reconnectInterval c)] else [])).

(** The ['error'] handler. *)
Definition onError (c : WebSocketClient) : WebSocketClient * list Effect :=
  (c, [ConsoleError; FireConnectionStatusChanged false]).

(** The ['close'] handler. *)
Definition onClose (c : WebSocketClient) (code : Z) (reason : option jsstring)
    : WebSocketClient * list Effect :=
  let authFailure :=
    bool_decide (code = 4000) ||
    match reason with
    | Some r => includes r (js "auth")
    | None => false
    end in
  (c, [ConsoleLog; FireConnectionStatusChanged false] ++
      (if authFailure then [ShowErrorMessage]
       else if autoReconnect c
            then [ConsoleLog; SetTimeout CbReconnect (reconnectInterval c)]
            else [])).

(** The ['open'] handler. *)
Definition onOpen (c : WebSocketClient) (now : Z) : WebSocketClient * list Effect :=
  (set_lastHistoryMessageTime (set_reconnectInterval c 5000) now,
   [ConsoleLog; ClearTimeout CbConnectionTimeout; FireConnectionStatusChanged true]).

(** The timer the ['close'] handler sets: grow the interval, connect. *)
Definition reconnectTimer (c : WebSocketClient) : WebSocketClient * list Effect :=
  connect (set_reconnectInterval c (Qmin (reconnectInterval c * 1.5) 30000)).

(** The ten-second connection timeout. *)
Definition connectionTimeout (c : WebSocketClient) : WebSocketClient * list Effect :=
  match socket c with
  | Some CONNECTING =>
      (set_socket c (Some CLOSING),
       [ConsoleLog; SocketClose; FireConnectionStatusChanged false])
  | _ => (c, [])
  end.

(** The body shared by the idle timer and the three-second ceiling. *)
Definition historyComplete (c : WebSocketClient) : WebSocketClient * list Effect :=
  if receivingInitialHistory c && negb (initialHistoryReceived c) then
    (set_initialHistoryReceived (set_receivingInitialHistory c false) true,
     [FireHistoryReceived])
  else (c, []).

(** *** Receiving and sending *)

(** [getAllCheckIns()], as a value: the elements of the copy it returns. *)
Definition getAllCheckIns (c : WebSocketClient) : list NewCheckInMessage :=
  allReceivedCheckIns c.

(** [getOnlineUsersCount()] *)
Definition getOnlineUsersCount (c : WebSocketClient) : Z := onlineUsersCount c.

(** [isConnected()] *)
Definition isConnected (c : WebSocketClient) : bool :=
  bool_decide (socket c = Some OPEN).

Definition MAX_CHARS : Z := 42.

(** [message.length > MAX_CHARS ? message.substring(0, MAX_CHARS) : message] *)
Definition truncatedMessage (message : jsstring) : jsstring :=
  if bool_decide (MAX_CHARS < js_length message)
  then substring message 0 MAX_CHARS
  else message.

(** [`https://github.com/${username}.png`] *)
Definition githubAvatar (username : jsstring) : jsstring :=
  js "https://github.com/" ++ username ++ js ".png".

(** The clock readings of one run of the callback of [sendCheckIn]:
    [new Date()] for the check-in, [Date.now()] in [signMessage],
    [Date.now()] for [lastCheckInTime], and the two readings of
    [startCooldownTimer]. *)
Record SendClock := {
  at_checkIn : Z;
  at_signature : Z;
  at_lastCheckIn : Z;
  at_timer1 : Z;
  at_timer2 : Z;
}.

Section Client.

Variable getTime : jsstring → option Z.
(** [new Date(t).toISOString()] *)
Variable toISOString : Z → jsstring.
Variable JSON_stringify : CleanMessage → jsstring.
Variable hmac_sha256_hex : jsstring → jsstring → jsstring.
Variable config : Config.

(** The ['message'] handler, on the outcome of parsing the data;
    [now] is the value of [Date.now()]. *)
Definition onMessage (c : WebSocketClient) (parsed : Parsed) (now : Z)
    : WebSocketClient * list Effect :=
  match parsed with
  | ParseThrows => (c, [ConsoleError])
  | ParsedMessage (Msg_new_checkin m) =>
      let c1 := set_messageCount c (S (messageCount c)) in
      let c2 := set_lastHistoryMessageTime c1 now in
      let c3 := set_allReceivedCheckIns c2 (storeCheckIn getTime (allReceivedCheckIns c2) m) in
      if receivingInitialHistory c3 then
        (set_historyTimeout c3 true,
         (if historyTimeout c3 then [ClearTimeout CbHistoryIdle] else []) ++
         [SetTimeout CbHistoryIdle 1000; FireMessageReceived m])
      else (c3, [FireMessageReceived m])
  | ParsedMessage (Msg_online_users count) =>
      let c1 := set_onlineUsersCount c count in
      (c1, [FireOnlineUsersChanged (onlineUsersCount c1)])
  | ParsedMessage (Msg_error _) => (c, [ConsoleError; ShowErrorMessage])
  | ParsedMessage (Msg_checkin _) => (c, [])
  | ParsedOther => (c, [])
  end.

(** [simulateCheckInResponse(username, tags, message, snippet)], with
    [now] the instant of [new Date()]. *)
Definition simulateCheckInResponse (c : WebSocketClient) (now : Z)
    (name : jsstring) (tagList : list jsstring) (text : jsstring)
    (snip : option jsstring) : WebSocketClient * list Effect * bool :=
  let checkInMessage :=
    {| username := name; tags := tagList; message := truncatedMessage text;
       timestamp := toISOString now; avatarUrl := Some (githubAvatar name);
       snippet := snip |} in
  (set_allReceivedCheckIns c (storeCheckIn getTime (allReceivedCheckIns c) checkInMessage),
   [SetTimeout (CbLocalEcho checkInMessage) 500],
   true).

(** The fallback shared by the [else] branch and the [catch] handler. *)
Definition sendCheckIn_simulated (c : WebSocketClient) (clock : SendClock)
    (name : jsstring) (tagList : list jsstring) (text randomSnippet : jsstring)
    : WebSocketClient * list Effect * bool :=
  let '(c1, effects, ok) :=
    simulateCheckInResponse c (at_checkIn clock) name tagList text (Some randomSnippet) in
  if ok then
    let c2 := set_lastCheckInTime c1 (at_lastCheckIn clock) in
    (c2, effects ++ startCooldownTimer c2 (at_timer1 clock) (at_timer2 clock), true)
  else (c1, effects, false).

(** The callback of [getAuthToken().then] in [sendCheckIn]; the third
    component is the value the promise resolves to. *)
Definition sendCheckIn_withToken (c : WebSocketClient) (clock : SendClock)
    (token : option jsstring)
    (name : jsstring) (tagList : list jsstring) (text randomSnippet : jsstring)
    : WebSocketClient * list Effect * bool :=
  if bool_decide (socket c = Some OPEN) then
    let avatar := githubAvatar name in
    let checkInMessage :=
      {| ci_type := js "checkin"; ci_username := name; ci_tags := tagList;
         ci_message := truncatedMessage text;
         ci_timestamp := toISOString (at_checkIn clock);
         ci_avatarUrl := Some avatar; ci_snippet := Some randomSnippet;
         ci_token := None; ci_signature := None;
         ci_signatureTimestamp := None |} in
    let '(signature, timestamp) :=
      signMessage JSON_stringify hmac_sha256_hex config checkInMessage
        (at_signature clock) in
    let messageToSend :=
      {| ci_type := ci_type checkInMessage;
         ci_username := ci_username checkInMessage;
         ci_tags := ci_tags checkInMessage;
         ci_message := ci_message checkInMessage;
         ci_timestamp := ci_timestamp checkInMessage;
         ci_avatarUrl := ci_avatarUrl checkInMessage;
         ci_snippet := ci_snippet checkInMessage;
         ci_token := token;
         ci_signature := Some signature;
         ci_signatureTimestamp := Some timestamp |} in
    let localUpdate :=
      {| username := name; tags := tagList; message := truncatedMessage text;
         timestamp := ci_timestamp checkInMessage;
         avatarUrl := Some avatar; snippet := Some randomSnippet |} in
    let c1 :=
      set_allReceivedCheckIns c (storeCheckIn getTime (allReceivedCheckIns c) localUpdate) in
    let c2 := set_lastCheckInTime c1 (at_lastCheckIn clock) in
    (c2,
     [SocketSend messageToSend; SetTimeout (CbLocalEcho localUpdate) 500] ++
     startCooldownTimer c2 (at_timer1 clock) (at_timer2 clock),
     true)
  else sendCheckIn_simulated c clock name tagList text randomSnippet.

(** [sendCheckIn(username, tags, message)] from the call to the value of
    its promise, for a token fetch that resolves with [token] while the
    client is in the state of the call. *)
Definition sendCheckIn (c : WebSocketClient) (now : Z) (clock : SendClock)
    (token : option jsstring)
    (name : jsstring) (tagList : list jsstring) (text randomSnippet : jsstring)
    : WebSocketClient * list Effect * bool :=
  if negb (canCheckIn c now) then (c, [], false)
  else sendCheckIn_withToken c clock token name tagList text randomSnippet.

(** *** The client as a transition system *)

Inductive Event :=
| EvToken (token : option jsstring) (constructed : bool)
| EvOpen (now : Z)
| EvError
| EvClose (code : Z) (reason : option jsstring)
| EvMessage (parsed : Parsed) (now : Z)
| EvTimer (cb : Callback) (now : Z).

(** The events are those of the socket [this.socket] refers to; the
    transport sets its [readyState] before it emits ['open'] and
    ['close']. *)
Definition transport_sets (c : WebSocketClient) (readyState : ReadyState) :=
  match socket c with
  | Some _ => set_socket c (Some readyState)
  | None => c
  end.

Definition step (c : WebSocketClient) (e : Event) : WebSocketClient * list Effect :=
  match e with
  | EvToken token constructed => connect_withToken c token constructed
  | EvOpen now => onOpen (transport_sets c OPEN) now
  | EvError => onError c
  | EvClose code reason => onClose (transport_sets c CLOSED) code reason
  | EvMessage parsed now => onMessage c parsed now
  | EvTimer CbConnectionTimeout _ => connectionTimeout c
  | EvTimer CbReconnect _ => reconnectTimer c
  | EvTimer CbRetryConnect _ => connect c
  | EvTimer CbHistoryIdle _ => historyComplete c
  | EvTimer CbHistoryCeiling _ => historyComplete c
  | EvTimer (CbLocalEcho m) _ => (c, [FireMessageReceived m])
  | EvTimer CbCooldownTick now => (c, cooldownTick c now)
  end.

(** A run: the final state and the effects of each step, in order. *)
Fixpoint run (c : WebSocketClient) (events : list Event)
    : WebSocketClient * list (list Effect) :=
  match events with
  | [] => (c, [])
  | e :: rest =>
      let '(c1, effects) := step c e in
      let '(c2, later) := run c1 rest in
      (c2, effects :: later)
  end.

End Client.

(** ** Arrays as objects

    Where it matters that two arrays are distinct objects, an array is a
    location of a heap, and the heap maps it to its elements. *)

Section Heap.

Context {A : Type}.

(** A new array with the given elements. *)
Definition alloc (h : gmap positive (list A)) (elems : list A)
    : positive * gmap positive (list A) :=
  let r := fresh (dom h) in (r, <[r := elems]> h).

(** [[...arr]] *)
Definition spread (h : gmap positive (list A)) (arr : positive)
    : positive * gmap positive (list A) :=
  alloc h (default [] (h !! arr)).

(** Any mutation of the array [arr] in place: [arr[i] = x], [arr.push(x)],
    [arr.length = 0], ... *)
Definition mutate (f : list A → list A) (arr : positive)
    (h : gmap positive (list A)) : gmap positive (list A) :=
  alter f arr h.

End Heap.

(** [getAllCheckIns()] on the heap: [return [...this.allReceivedCheckIns]]. *)
Definition getAllCheckIns_array (h : gmap positive (list NewCheckInMessage))
    (this_allReceivedCheckIns : positive) :=
  spread h this_allReceivedCheckIns.

(** The array [updateView] posts: [[...this.checkIns].sort(...)], where
    [sort] works in place on the copy. *)
Definition sortedCheckIns_array (getTime : jsstring → option Z)
    (h : gmap positive (list CheckInData)) (this_checkIns : positive) :=
  let '(copy, h1) := spread h this_checkIns in
  (copy, mutate (sort (newestFirst getTime)) copy h1).

(** ** A model of [Date] for the worked examples

    [isoTime] reads the format [toISOString] writes,
    [YYYY-MM-DDTHH:mm:ss.sssZ], and takes every other string for an invalid
    date; [isoString] writes it, for the years 0 to 9999. *)

Definition days_from_civil (y m d : Z) : Z :=
  let y' := if m <=? 2 then y - 1 else y in
  let era := y' / 400 in
  let yoe := y' - era * 400 in
  let mp := (m + 9) mod 12 in
  let doy := (153 * mp + 2) / 5 + d - 1 in
  let doe := yoe * 365 + yoe / 4 - yoe / 100 + doy in
  era * 146097 + doe - 719468.

Definition civil_from_days (days : Z) : Z * Z * Z :=
  let z := days + 719468 in
  let era := z / 146097 in
  let doe := z - era * 146097 in
  let yoe := (doe - doe / 1460 + doe / 36524 - doe / 146096) / 365 in
  let doy := doe - (365 * yoe + yoe / 4 - yoe / 100) in
  let mp := (5 * doy + 2) / 153 in
  let d := doy - (153 * mp + 2) / 5 + 1 in
  let m := if mp <? 10 then mp + 3 else mp - 9 in
  let y := yoe + era * 400 + (if m <=? 2 then 1 else 0) in
  (y, m, d).

Definition days_in_month (y m : Z) : Z :=
  if m =? 2 then
    if ((y mod 4 =? 0) && negb (y mod 100 =? 0)) || (y mod 400 =? 0) then 29 else 28
  else if (m =? 4) || (m =? 6) || (m =? 9) || (m =? 11) then 30
  else 31.

Definition digit (u : code_unit) : option Z :=
  if ((48 <=? u) && (u <=? 57))%N then Some (Z.of_N u - 48) else None.

Fixpoint digits (acc : Z) (l : jsstring) : option Z :=
  match l with
  | [] => Some acc
  | u :: rest => d ← digit u; digits (10 * acc + d) rest
  end.

Definition isoTime (s : jsstring) : option Z :=
  match s with
  | [y1; y2; y3; y4; a; m1; m2; b; d1; d2; t; h1; h2; p; i1; i2; q; s1; s2;
     dot; f1; f2; f3; z] =>
      if bool_decide ([a; b; t; p; q; dot; z] = js "--T::.Z") then
        y ← digits 0 [y1; y2; y3; y4];
        m ← digits 0 [m1; m2];
        d ← digits 0 [d1; d2];
        h ← digits 0 [h1; h2];
        i ← digits 0 [i1; i2];
        sec ← digits 0 [s1; s2];
        f ← digits 0 [f1; f2; f3];
        if (1 <=? m) && (m <=? 12) && (1 <=? d) && (d <=? days_in_month y m)
           && (h <=? 23) && (i <=? 59) && (sec <=? 59)
        then Some (days_from_civil y m d * 86400000
                   + h * 3600000 + i * 60000 + sec * 1000 + f)
        else None
      else None
  | _ => None
  end.

Definition digitChar (d : Z) : code_unit := Z.to_N (48 + d mod 10).

Definition pad2 (n : Z) : jsstring := [digitChar (n / 10); digitChar n].
Definition pad3 (n : Z) : jsstring := digitChar (n / 100) :: pad2 n.
Definition pad4 (n : Z) : jsstring := digitChar (n / 1000) :: pad3 n.

Definition isoString (t : Z) : jsstring :=
  let days := t / 86400000 in
  let ms := t mod 86400000 in
  let '(y, m, d) := civil_from_days days in
  pad4 y ++ js "-" ++ pad2 m ++ js "-" ++ pad2 d ++ js "T" ++
  pad2 (ms / 3600000) ++ js ":" ++ pad2 (ms / 60000 mod 60) ++ js ":" ++
  pad2 (ms / 1000 mod 60) ++ js "." ++ pad3 (ms mod 1000) ++ js "Z".

(** ** The code [storeCheckIn] and [addCheckIn] share

    Both methods look the user up with [findIndex], replace the entry
    found when the new timestamp is greater, and push the check-in when
    the user is not there; [upsert] is that common part, over the
    projections of either record. *)

Section Upsert.

Context {E : Type} (key : E → jsstring) (time : E → option Z).

Definition upsert (buf : list E) (x : E) : list E :=
  match findIndex (λ c, bool_decide (key c = key x)) buf with
  | Some existingIndex =>
      match buf !! existingIndex with
      | Some existing =>
          if num_gt (time x) (time existing)
          then <[existingIndex := x]> buf
          else buf
      | None => buf
      end
  | None => buf ++ [x]
  end.

(** The entry a buffer holds for a user: the one [findIndex] finds. *)
Definition entryOf (u : jsstring) (buf : list E) : option E :=
  i ← findIndex (λ c, bool_decide (key c = u)) buf; buf !! i.

(** The timestamp of that entry. *)
Definition timeOf (u : jsstring) (buf : list E) : option Z :=
  e ← entryOf u buf; time e.

(** [final] holds for user [u] one of the check-ins [l], or the entry
    that [initial] held for [u], and no timestamp among these is
    greater than the one it holds. *)
Definition holds_latest (u : jsstring) (initial l final : list E) : Prop :=
  ∃ e t, entryOf u final = Some e ∧ time e = Some t ∧
    (e ∈ l ∨ entryOf u initial = Some e) ∧
    (∀ m, m ∈ l → ∃ tm, time m = Some tm ∧ tm ≤ t) ∧
    (∀ e0, entryOf u initial = Some e0 → ∃ t0, time e0 = Some t0 ∧ t0 ≤ t).

End Upsert.

(** [a] is not older than [b], both timestamps being valid dates. *)
Definition notOlder (getTime : jsstring → option Z) (a b : CheckInData) : Prop :=
  ∃ ta tb, getTime (cd_timestamp a) = Some ta ∧
           getTime (cd_timestamp b) = Some tb ∧ tb ≤ ta.

(** The view's list after [addCheckIn]. *)
Definition addCheckIn_list (getTime : jsstring → option Z)
    (v : SecondaryCheckInView) (checkIn : CheckInData) : list CheckInData :=
  checkIns (addCheckIn getTime v checkIn).1.

(** The view after a sequence of calls of [addCheckIn]. *)
Definition addCheckIns (getTime : jsstring → option Z)
    (v : SecondaryCheckInView) (l : list CheckInData) : SecondaryCheckInView :=
  foldl (λ v' x, (addCheckIn getTime v' x).1) v l.

(** The client's array after a sequence of calls of [storeCheckIn]. *)
Definition storeCheckIns (getTime : jsstring → option Z)
    (buf : list NewCheckInMessage) (l : list NewCheckInMessage) :=
  foldl (storeCheckIn getTime) buf l.

(** ** Reading a run *)

(** The delay of the reconnect that a list of effects schedules. *)
Fixpoint scheduledReconnect (effects : list Effect) : option Q :=
  match effects with
  | [] => None
  | SetTimeout CbReconnect delay :: _ => Some delay
  | _ :: rest => scheduledReconnect rest
  end.

(** The test of the ['close'] handler for an authentication failure. *)
Definition authFailure (code : Z) (reason : option jsstring) : bool :=
  bool_decide (code = 4000) ||
  match reason with
  | Some r => includes r (js "auth")
  | None => false
  end.

Definition isOpenEvent (e : Event) : bool :=
  match e with
  | EvOpen _ => true
  | _ => false
  end.

Definition isReconnectTimer (e : Event) : bool :=
  match e with
  | EvTimer CbReconnect _ => true
  | _ => false
  end.

(** The number of times the reconnect timer fires in a run. *)
Definition reconnectTimers (events : list Event) : nat :=
  length (filter (λ e, isReconnectTimer e = true) events).

(** The messages the handler acts on: ['new_checkin'], ['online_users']
    and ['error']. *)
Definition handled (parsed : Parsed) : bool :=
  match parsed with
  | ParsedMessage (Msg_new_checkin _) => true
  | ParsedMessage (Msg_online_users _) => true
  | ParsedMessage (Msg_error _) => true
  | _ => false
  end.

(** One failed attempt after another: each socket closes with the plain
    code 1006, the reconnect timer fires, the token arrives and a new
    socket is made. *)
Definition failedAttempt : list Event :=
  [EvClose 1006 None; EvTimer CbReconnect 0; EvToken None true].

(** A client left to itself through one failure after another: each
    socket closes with its code and reason, the reconnect timer that close
    has set fires, the token arrives and the next socket is made; nothing
    else calls [connect()] in between. *)
Definition unattended (rounds : list (Z * option jsstring * option jsstring))
    : list Event :=
  rounds ≫= λ r, [EvClose r.1.1 r.1.2; EvTimer CbReconnect 0; EvToken r.2 true].

(** ** More of [WebSocketClient] *)

(** [Math.ceil(a / b)] for integers [a] and [b > 0]. *)
Definition ceil_div (a b : Z) : Z := - ((- a) / b).

(** [getFormattedCooldownTime()] *)
Definition getFormattedCooldownTime (c : WebSocketClient) (now : Z) : jsstring :=
  let remainingMs := getRemainingCooldownTime c now in
  if bool_decide (remainingMs ≤ 0) then js "Available now"
  else
    let totalSeconds := ceil_div remainingMs 1000 in
    let minutes := totalSeconds / 60 in
    let seconds := totalSeconds mod 60 in
    numberToString minutes ++ js "m " ++ numberToString seconds ++ js "s".

(** [disconnect()] *)
Definition disconnect (c : WebSocketClient) : WebSocketClient * list Effect :=
  match socket c with
  | Some readyState =>
      if bool_decide (readyState ≠ CLOSED)
      then (set_socket c None,
            [ConsoleLog; SocketClose; FireConnectionStatusChanged false])
      else (c, [ConsoleLog; FireConnectionStatusChanged false])
  | None => (c, [ConsoleLog; FireConnectionStatusChanged false])
  end.

Definition isHistoryReceived (e : Effect) : bool :=
  match e with
  | FireHistoryReceived => true
  | _ => false
  end.

(** How many times a run fires [onHistoryReceived]. *)
Definition historyReceivedCount (effects : list (list Effect)) : nat :=
  length (filter (λ e, isHistoryReceived e = true) (concat effects)).

(** The events whose callback calls [connect()]. *)
Definition callsConnect (e : Event) : bool :=
  match e with
  | EvTimer CbReconnect _ => true
  | EvTimer CbRetryConnect _ => true
  | _ => false
  end.

(** What happens to a client: an event of its socket or of a timer, a
    call of [sendCheckIn] whose token arrives at once, or a call of
    [disconnect]. *)
Inductive Action :=
| Happens (e : Event)
| Submits (now : Z) (clock : SendClock) (token : option jsstring)
    (name : jsstring) (tagList : list jsstring) (text randomSnippet : jsstring)
| Disconnects.

Section Actions.

Variable getTime : jsstring → option Z.
Variable toISOString : Z → jsstring.
Variable JSON_stringify : CleanMessage → jsstring.
Variable hmac_sha256_hex : jsstring → jsstring → jsstring.
Variable config : Config.

Definition perform (c : WebSocketClient) (a : Action) : WebSocketClient :=
  match a with
  | Happens e => (step getTime c e).1
  | Submits now clock token name tagList text randomSnippet =>
      (sendCheckIn getTime toISOString JSON_stringify hmac_sha256_hex config
         c now clock token name tagList text randomSnippet).1.1
  | Disconnects => (disconnect c).1
  end.

(** The client after a sequence of actions. *)
Definition performAll (c : WebSocketClient) (actions : list Action) : WebSocketClient :=
  foldl perform c actions.

End Actions.

(** ** [Set<string>]

    A set iterates in the order of insertion: it is the list of its
    elements, each once. *)

Definition set_has (s : list jsstring) (x : jsstring) : bool :=
  bool_decide (x ∈ s).

Definition set_add (s : list jsstring) (x : jsstring) : list jsstring :=
  if bool_decide (x ∈ s) then s else s ++ [x].

Definition set_delete (s : list jsstring) (x : jsstring) : list jsstring :=
  filter (λ y, y ≠ x) s.

(** [new Set(arr)] *)
Definition set_of_array (arr : list jsstring) : list jsstring :=
  foldl set_add [] arr.

(** ** [FileHistoryTracker] *)

Module FileHistoryTracker.

Definition maxHistorySize : nat := 30.

(** [addFile(filePath)], on the set [recentFiles]. *)
Definition addFile (recentFiles : list jsstring) (filePath : jsstring) : list jsstring :=
  let deleted :=
    if set_has recentFiles filePath then set_delete recentFiles filePath
    else recentFiles in
  let added := set_add deleted filePath in
  if bool_decide (maxHistorySize < length added)%nat then
    match added with
    | oldest :: _ => set_delete added oldest
    | [] => added
    end
  else added.

(** [getRecentFiles()] *)
Definition getRecentFiles (recentFiles : list jsstring) : list jsstring := recentFiles.

(** [clear()] *)
Definition clear (recentFiles : list jsstring) : list jsstring := [].

End FileHistoryTracker.

(** ** [tagsUtils.ts] *)

(** What the code reads of a [vscode.TextEditor]. *)
Record TextEditor := {
  document_scheme : jsstring;
  document_fileName : jsstring;
  document_languageId : jsstring;
}.

(** [s.replace('.', '')]: the first full stop goes. *)
Fixpoint removeFirst (u : code_unit) (s : jsstring) : jsstring :=
  match s with
  | [] => []
  | a :: rest => if bool_decide (a = u) then rest else a :: removeFirst u rest
  end.

Definition extensionMappings : list (jsstring * list jsstring) :=
  [(js "jsx", [js "react"]);
   (js "tsx", [js "react"; js "typescript"]);
   (js "vue", [js "vue"]);
   (js "svelte", [js "svelte"]);
   (js "ts", [js "typescript"]);
   (js "py", [js "python"]);
   (js "rb", [js "ruby"]);
   (js "php", [js "php"]);
   (js "go", [js "golang"]);
   (js "rs", [js "rust"]);
   (js "java", [js "java"]);
   (js "cs", [js "csharp"; js "dotnet"]);
   (js "fs", [js "fsharp"; js "dotnet"]);
   (js "sql", [js "database"; js "sql"]);
   (js "dart", [js "flutter"; js "dart"]);
   (js "kt", [js "kotlin"]);
   (js "swift", [js "swift"; js "ios"]);
   (js "scala", [js "scala"]);
   (js "clj", [js "clojure"]);
   (js "elm", [js "elm"]);
   (js "ex", [js "elixir"]);
   (js "hs", [js "haskell"]);
   (js "r", [js "r"]);
   (js "toml", [js "configuration"]);
   (js "yaml", [js "configuration"]);
   (js "yml", [js "configuration"]);
   (js "json", [js "json"]);
   (js "md", [js "markdown"]);
   (js "html", [js "html"]);
   (js "css", [js "css"]);
   (js "scss", [js "scss"; js "css"]);
   (js "less", [js "less"; js "css"])].

(** The names every object inherits from [Object.prototype]. *)
Definition objectPrototypeNames : list jsstring :=
  [js "constructor"; js "__proto__"; js "hasOwnProperty"; js "isPrototypeOf";
   js "propertyIsEnumerable"; js "toLocaleString"; js "toString"; js "valueOf";
   js "__defineGetter__"; js "__defineSetter__"; js "__lookupGetter__";
   js "__lookupSetter__"].

(** The value of [extensionMappings[fileExtension]]: one of the arrays of
    the table, a function or object inherited from [Object.prototype]
    (truthy, and not iterable), or [undefined]. *)
Inductive PropertyValue :=
| OwnTags (mapped : list jsstring)
| Inherited
| Undefined.

Fixpoint ownProperty (key : jsstring) (table : list (jsstring * list jsstring))
    : option (list jsstring) :=
  match table with
  | [] => None
  | (k, v) :: rest => if bool_decide (k = key) then Some v else ownProperty key rest
  end.

Definition getProperty (key : jsstring) : PropertyValue :=
  match ownProperty key extensionMappings with
  | Some mapped => OwnTags mapped
  | None =>
      if bool_decide (key ∈ objectPrototypeNames) then Inherited else Undefined
  end.

(** [arr.forEach(body)] for a body that may throw: [None] is the
    exception, which ends the loop. *)
Fixpoint forEach {S A} (body : S → A → option S) (arr : list A) (st : S) : option S :=
  match arr with
  | [] => Some st
  | x :: rest => st' ← body st x; forEach body rest st'
  end.

Section Tags.

(** [path.extname] and [String.prototype.toLowerCase]. *)
Variable extname : jsstring → jsstring.
Variable toLowerCase : jsstring → jsstring.

(** [path.extname(filePath).toLowerCase().replace('.', '')] *)
Definition fileExtensionOf (filePath : jsstring) : jsstring :=
  removeFirst 46%N (toLowerCase (extname filePath)).

(** [processFileForTags(filePath, languageId, allTags)]: the array
    [allTags] after the call, [None] when the spread of a value that is not
    iterable throws a [TypeError]. *)
Definition processFileForTags (filePath : jsstring) (languageId : option jsstring)
    (allTags : list jsstring) : option (list jsstring) :=
  let allTags1 :=
    match languageId with
    | Some id =>
        if bool_decide (id ≠ []) && bool_decide (id ≠ js "plaintext")
        then allTags ++ [id] else allTags
    | None => allTags
    end in
  let fileExtension := fileExtensionOf filePath in
  if bool_decide (fileExtension ≠ []) then
    match getProperty fileExtension with
    | OwnTags mapped => Some (allTags1 ++ mapped)
    | Inherited => None
    | Undefined => Some allTags1
    end
  else Some allTags1.

(** The body of [visibleEditors.forEach], on the pair of [processedFiles]
    and [allTags]. *)
Definition visitEditor (st : list jsstring * list jsstring) (editor : TextEditor)
    : option (list jsstring * list jsstring) :=
  if bool_decide (document_scheme editor ≠ js "file") then Some st
  else
    allTags ← processFileForTags (document_fileName editor)
                (Some (document_languageId editor)) st.2;
    Some (set_add st.1 (document_fileName editor), allTags).

(** The body of [recentFiles.forEach]. *)
Definition visitRecentFile (st : list jsstring * list jsstring) (filePath : jsstring)
    : option (list jsstring * list jsstring) :=
  if set_has st.1 filePath then Some st
  else
    allTags ← processFileForTags filePath None st.2;
    Some (st.1, allTags).

(** [getActiveFileTags()], for the visible editors and the files of the
    tracker; [None] when it throws.  The check for [package.json] pushes
    to [allTags] in a promise callback, after the tags were copied out, and
    so has no part in the result. *)
Definition getActiveFileTags (visibleEditors : list TextEditor)
    (recentFiles : list jsstring) : option (list jsstring) :=
  st1 ← forEach visitEditor visibleEditors ([], []);
  st2 ← forEach visitRecentFile recentFiles st1;
  let uniqueTags := set_of_array st2.2 in
  Some (take 3 uniqueTags).

(** The files [getActiveFileTags] runs [processFileForTags] on. *)
Definition processedPaths (visibleEditors : list TextEditor)
    (recentFiles : list jsstring) : list jsstring :=
  let visible :=
    document_fileName <$>
      filter (λ e, document_scheme e = js "file") visibleEditors in
  visible ++ filter (λ f, f ∉ visible) recentFiles.

End Tags.

(** A tag is the language of a visible editor on a file, or an entry of
    the extension table. *)
Definition tagSource (visibleEditors : list TextEditor) (t : jsstring) : Prop :=
  (∃ e, e ∈ visibleEditors ∧ document_scheme e = js "file" ∧
        document_languageId e = t) ∨
  (∃ k mapped, (k, mapped) ∈ extensionMappings ∧ t ∈ mapped).

(** ** [CheckInProvider] *)

Module CheckInProvider.

Record CheckInData := {
  username : jsstring;
  tags : list jsstring;
  message : jsstring;
  timestamp : jsstring;
  avatarUrl : option jsstring;
}.

Inductive Effect :=
| FireTreeDataChanged
| ShowInformationMessage (text : jsstring).

Definition maxCheckIns : nat := 100.

(** [addCheckIn(checkIn)], on the array [checkIns]. *)
Definition addCheckIn (checkIns : list CheckInData) (checkIn : CheckInData)
    : list CheckInData * list Effect :=
  let existingIndex :=
    findIndex (λ c, bool_decide (username c = username checkIn) &&
                    bool_decide (timestamp c = timestamp checkIn)) checkIns in
  let checkIns' :=
    match existingIndex with
    | Some i => <[i := checkIn]> checkIns
    | None =>
        let unshifted := checkIn :: checkIns in
        if bool_decide (maxCheckIns < length unshifted)%nat
        then take maxCheckIns unshifted else unshifted
    end in
  (checkIns',
   FireTreeDataChanged ::
   match existingIndex with
   | Some _ => []
   | None =>
       if bool_decide (message checkIn = [])
       then [ShowInformationMessage (username checkIn ++ js " checked in")]
       else [ShowInformationMessage
               (username checkIn ++ js " checked in: " ++ message checkIn)]
   end).

(** The array after a sequence of calls. *)
Definition addCheckIns (checkIns : list CheckInData) (l : list CheckInData)
    : list CheckInData :=
  foldl (λ acc x, (addCheckIn acc x).1) checkIns l.

End CheckInProvider.

(** ** Data of the worked examples *)

(** The view as its constructor leaves it. *)
Definition newSecondaryCheckInView : SecondaryCheckInView :=
  {| _view := None; checkIns := []; webviewReady := false;
     pendingCheckIns := []; view_onlineUsersCount := 0; newCheckInsCount := 0 |}.

Definition checkInOf (name stamp text : string) : NewCheckInMessage :=
  {| username := js name; tags := []; message := js text;
     timestamp := js stamp; avatarUrl := None; snippet := None |}.

Definition alice_0900 := checkInOf "alice" "2024-05-01T09:00:00.000Z" "standup".
Definition alice_1000 := checkInOf "alice" "2024-05-01T10:00:00.000Z" "review".
Definition alice_1200 := checkInOf "alice" "2024-05-01T12:00:00.000Z" "lunch".
Definition bob_1100 := checkInOf "bob" "2024-05-01T11:00:00.000Z" "deploy".

(** A hundred users, a minute apart from 08:00 on, and one more who checks
    in the day after. *)
Definition member (i : nat) : NewCheckInMessage :=
  {| username := js "user" ++ numberToString (Z.of_nat i); tags := [];
     message := [];
     timestamp := isoString (1714550400000 + 60000 * Z.of_nat i);
     avatarUrl := None; snippet := None |}.

Definition hundred : list NewCheckInMessage := member <$> seq 0 100.

Definition newcomer := checkInOf "zoe" "2024-05-02T00:00:00.000Z" "hello".

(** A client as its constructor leaves it, with the ten minutes of
    cooldown the README announces. *)
Definition demo_config : Config :=
  {| cooldownPeriod_minutes := 10; signing_secret := js "secret" |}.

Definition demo_client : WebSocketClient :=
  newWebSocketClient demo_config (js "wss://relay.example").

(** Stand-ins for [JSON.stringify] and for the HMAC, to run the examples:
    the properties below hold for whatever these two functions are. *)
Definition demo_stringify (m : CleanMessage) : jsstring :=
  clean_type m ++ clean_username m ++ concat (clean_tags m) ++
  clean_message m ++ clean_timestamp m ++
  default [] (clean_avatarUrl m) ++ default [] (clean_snippet m).

Definition demo_hmac (key data : jsstring) : jsstring := key ++ data.

(** A check-in sent at 12:00:00, each later reading of the clock a
    millisecond after the one before. *)
Definition demo_clock : SendClock :=
  {| at_checkIn := 1714564800000; at_signature := 1714564800001;
     at_lastCheckIn := 1714564800002; at_timer1 := 1714564800003;
     at_timer2 := 1714564800004 |}.

(** Fifty characters. *)
Definition long_text : jsstring :=
  js "0123456789012345678901234567890123456789012345678X".

(** The client once [connect()] has made its socket, and once that socket
    has opened. *)
Definition connecting_client : WebSocketClient :=
  (connect_withToken (connect demo_client).1 None true).1.

Definition open_client : WebSocketClient :=
  (step isoTime connecting_client (EvOpen 1714564800000)).1.

(** The first socket has closed (its reconnect timer is pending);
    [updateAuthStatus(true)] has found the client not connected and called
    [connect()], and the socket that call made has opened; then the
    pending timer fires. *)
Definition closed_once : WebSocketClient :=
  (step isoTime connecting_client (EvClose 1006 None)).1.

Definition reconnected_by_user : WebSocketClient :=
  (connect_withToken (connect closed_once).1 None true).1.

Definition reopened_client : WebSocketClient :=
  (step isoTime reconnected_by_user (EvOpen 1714564802000)).1.

Definition after_stale_timer : WebSocketClient :=
  (reconnectTimer reopened_client).1.

(** A check-in whose timestamp is not a date, and a second check-in of the
    newcomer, an hour after the first. *)
Definition alice_undated := checkInOf "alice" "yesterday" "standup".

Definition newcomer_later := checkInOf "zoe" "2024-05-02T01:00:00.000Z" "again".

(** Thirty files, and the tracker that holds them. *)
Definition thirty_files : list jsstring :=
  (λ i, js "/src/file" ++ numberToString (Z.of_nat i) ++ js ".ts") <$> seq 0 30.

(** Stand-ins for [path.extname] and [toLowerCase], right on the paths of
    the examples: the suffix from the last full stop on, and the ASCII
    letters. *)
Fixpoint lastDotSuffix (s : jsstring) : option jsstring :=
  match s with
  | [] => None
  | a :: rest =>
      match lastDotSuffix rest with
      | Some suffix => Some suffix
      | None => if bool_decide (a = 46%N) then Some (a :: rest) else None
      end
  end.

Definition demo_extname (s : jsstring) : jsstring := default [] (lastDotSuffix s).

Definition demo_toLowerCase (s : jsstring) : jsstring :=
  (λ u, if ((65 <=? u) && (u <=? 90))%N then (u + 32)%N else u) <$> s.

Definition demo_editors : list TextEditor :=
  [{| document_scheme := js "file"; document_fileName := js "/w/App.TSX";
      document_languageId := js "typescriptreact" |};
   {| document_scheme := js "output"; document_fileName := js "tasks";
      document_languageId := js "log" |}].

Definition demo_recentFiles : list jsstring :=
  [js "/w/main.py"; js "/w/App.TSX"; js "/w/notes.txt"].

Definition provider_checkIn (name stamp text : string) : CheckInProvider.CheckInData :=
  {| CheckInProvider.username := js name; CheckInProvider.tags := [];
     CheckInProvider.message := js text; CheckInProvider.timestamp := js stamp;
     CheckInProvider.avatarUrl := None |}.

(** * Properties *)

(** ** Arrays *)

Lemma findIndex_Some {A} (p : A → bool) (l : list A) (i : nat) :
  findIndex p l = Some i ↔
  ∃ x, l !! i = Some x ∧ p x = true ∧ ∀ j y, (j < i)%nat → l !! j = Some y → p y = false.
Proof.
  revert i. induction l as [|a l IH]; intros i; simpl.
  - split; [done | intros (x & Hx & _); done].
  - destruct (p a) eqn:Hpa.
    + split.
      * intros [= <-]. exists a. split_and!; [done | done | intros; lia].
      * intros (x & Hx & Hpx & Hlt). destruct i as [|i]; [done|].
        specialize (Hlt 0%nat a ltac:(lia) eq_refl). congruence.
    + destruct (findIndex p l) as [k|]; simpl.
      * split.
        -- intros [= <-]. destruct (proj1 (IH k) eq_refl) as (x & Hx & Hpx & Hlt).
           exists x. split_and!; [done | done |].
           intros [|j] y Hj Hy; simpl in *; [congruence|]. apply (Hlt j); [lia | done].
        -- intros (x & Hx & Hpx & Hlt). destruct i as [|i]; simpl in *; [congruence|].
           assert (Some k = Some i) as [= ->]; [|done].
           apply IH. exists x. split_and!; [done | done |].
           intros j y Hj Hy. apply (Hlt (S j)); [lia | done].
      * split; [done|]. intros (x & Hx & Hpx & Hlt).
        destruct i as [|i]; simpl in *; [congruence|].
        assert (@None nat = Some i) as Hi; [|done].
        apply IH. exists x. split_and!; [done | done |].
        intros j y Hj Hy. apply (Hlt (S j)); [lia | done].
Qed.

Lemma findIndex_None {A} (p : A → bool) (l : list A) :
  findIndex p l = None ↔ ∀ x, x ∈ l → p x = false.
Proof.
  induction l as [|a l IH]; simpl.
  - split; [intros _ x Hx; by apply elem_of_nil in Hx | done].
  - destruct (p a) eqn:Hpa.
    + split; [done|]. intros H. specialize (H a ltac:(left)). congruence.
    + destruct (findIndex p l) as [n|]; simpl.
      * split; [done|]. intros H.
        assert (Some n = None) as Hn; [|done].
        apply IH. intros x Hx. apply H. by right.
      * split; [|done]. intros _ x Hx. apply elem_of_cons in Hx as [->|Hx]; [done|].
        by apply IH.
Qed.

(** ** One entry per user, the latest *)

Section UpsertFacts.

Context {E : Type} (key : E → jsstring) (time : E → option Z).

Local Abbreviation put := (upsert key time).
Local Abbreviation get := (entryOf key).

Lemma entryOf_Some u buf e :
  get u buf = Some e → e ∈ buf ∧ key e = u.
Proof.
  unfold entryOf. intros H.
  destruct (findIndex _ buf) as [i|] eqn:Hi; simpl in H; [|done].
  apply findIndex_Some in Hi as (x & Hx & Hpx & _).
  assert (x = e) as -> by congruence.
  split; [by eapply list_elem_of_lookup_2 | by apply bool_decide_eq_true in Hpx].
Qed.

Lemma entryOf_None u buf :
  get u buf = None ↔ u ∉ key <$> buf.
Proof.
  unfold entryOf. split.
  - intros H Hin. apply list_elem_of_fmap in Hin as (x & -> & Hx).
    destruct (findIndex _ buf) as [i|] eqn:Hi; simpl in H.
    + apply findIndex_Some in Hi as (y & Hy & _). congruence.
    + eapply findIndex_None in Hi; [|exact Hx].
      by apply bool_decide_eq_false in Hi.
  - intros Hnin.
    assert (findIndex (λ c, bool_decide (key c = u)) buf = None) as ->; [|done].
    apply findIndex_None. intros x Hx. apply bool_decide_eq_false.
    intros <-. apply Hnin, list_elem_of_fmap. eauto.
Qed.

Lemma entryOf_snoc_absent buf x :
  get (key x) buf = None → get (key x) (buf ++ [x]) = Some x.
Proof.
  intros Hnone. apply entryOf_None in Hnone.
  unfold entryOf.
  assert (findIndex (λ c, bool_decide (key c = key x)) (buf ++ [x])
          = Some (length buf)) as ->.
  { apply findIndex_Some. exists x. split_and!.
    - by rewrite lookup_app_r, Nat.sub_diag.
    - by apply bool_decide_eq_true.
    - intros j y Hj Hy. rewrite lookup_app_l in Hy by done.
      apply bool_decide_eq_false. intros Hk. apply Hnone.
      apply list_elem_of_fmap. exists y. split; [done|].
      by eapply list_elem_of_lookup_2. }
  simpl. by rewrite lookup_app_r, Nat.sub_diag.
Qed.

Lemma upsert_absent buf x :
  get (key x) buf = None → put buf x = buf ++ [x].
Proof.
  unfold entryOf, upsert. intros H.
  destruct (findIndex _ buf) as [i|] eqn:Hi; [|done]. simpl in H.
  apply findIndex_Some in Hi as (y & Hy & _). congruence.
Qed.

Lemma upsert_keep buf x e :
  get (key x) buf = Some e → num_gt (time x) (time e) = false →
  put buf x = buf.
Proof.
  unfold entryOf, upsert. intros H Hgt.
  destruct (findIndex _ buf) as [i|]; simpl in H; [|done].
  rewrite H. by rewrite Hgt.
Qed.

Lemma upsert_replace buf x e :
  get (key x) buf = Some e → num_gt (time x) (time e) = true →
  get (key x) (put buf x) = Some x ∧
  key <$> put buf x = key <$> buf.
Proof.
  unfold entryOf, upsert. intros H Hgt.
  destruct (findIndex _ buf) as [i|] eqn:Hi; simpl in H; [|done].
  rewrite H, Hgt.
  pose proof Hi as Hi'. apply findIndex_Some in Hi' as (y & Hy & Hpy & Hlt).
  assert (y = e) as -> by congruence.
  assert (i < length buf)%nat as Hlen by (by eapply lookup_lt_Some).
  split.
  - assert (findIndex (λ c, bool_decide (key c = key x)) (<[i:=x]> buf) = Some i) as ->.
    { apply findIndex_Some. exists x. split_and!.
      - by apply list_lookup_insert_eq.
      - by apply bool_decide_eq_true.
      - intros j z Hj Hz. rewrite list_lookup_insert_ne in Hz by lia. eauto. }
    simpl. by apply list_lookup_insert_eq.
  - rewrite list_fmap_insert. apply list_insert_id.
    rewrite list_lookup_fmap, Hy. simpl. f_equal.
    by apply bool_decide_eq_true in Hpy.
Qed.

(** The set of users only grows by the user of the new check-in. *)
Lemma upsert_keys buf x :
  key <$> put buf x =
  if get (key x) buf is Some _ then key <$> buf else (key <$> buf) ++ [key x].
Proof.
  destruct (get (key x) buf) as [e|] eqn:He.
  - destruct (num_gt (time x) (time e)) eqn:Hgt.
    + by destruct (upsert_replace buf x e He Hgt).
    + by erewrite upsert_keep.
  - rewrite upsert_absent by done. by rewrite fmap_app.
Qed.

Lemma upsert_NoDup buf x :
  NoDup (key <$> buf) → NoDup (key <$> put buf x).
Proof.
  intros Hnd. rewrite upsert_keys.
  destruct (get (key x) buf) eqn:He; [done|].
  apply entryOf_None in He. apply NoDup_app. split_and!; [done | |].
  - intros k Hk Hin. apply list_elem_of_singleton in Hin as ->. done.
  - apply NoDup_singleton.
Qed.

Lemma upserts_NoDup buf l :
  NoDup (key <$> buf) → NoDup (key <$> foldl put buf l).
Proof.
  revert buf. induction l as [|x l IH]; intros buf Hnd; simpl; [done|].
  by apply IH, upsert_NoDup.
Qed.

(** A user who has an entry keeps one, and its timestamp only grows. *)
Lemma upserts_present u buf l e t :
  get u buf = Some e → time e = Some t →
  Forall (λ m, key m = u ∧ is_Some (time m)) l →
  ∃ e' t', get u (foldl put buf l) = Some e' ∧ time e' = Some t' ∧
           (e' = e ∨ e' ∈ l) ∧ t ≤ t' ∧
           Forall (λ m, ∃ tm, time m = Some tm ∧ tm ≤ t') l.
Proof.
  revert buf e t. induction l as [|m l IH]; intros buf e t He Ht Hl; simpl.
  - exists e, t. split_and!; [done | done | by left | lia | constructor].
  - apply Forall_cons in Hl as [[Hkm [tm Htm]] Hl]. subst u.
    destruct (num_gt (time m) (time e)) eqn:Hgt.
    + destruct (upsert_replace buf m e He Hgt) as [He1 _].
      destruct (IH _ m tm He1 Htm Hl) as (e' & t' & H1 & H2 & H3 & H4 & H5).
      rewrite Htm, Ht in Hgt. simpl in Hgt. apply bool_decide_eq_true in Hgt.
      exists e', t'. split_and!; [done | done | | lia | ].
      * right. destruct H3 as [->|H3]; [by left | by right].
      * apply Forall_cons. split; [exists tm; split; [done | lia] | done].
    + rewrite (upsert_keep buf m e He Hgt).
      destruct (IH _ e t He Ht Hl) as (e' & t' & H1 & H2 & H3 & H4 & H5).
      rewrite Htm, Ht in Hgt. simpl in Hgt. apply bool_decide_eq_false in Hgt.
      exists e', t'. split_and!; [done | done | | lia | ].
      * destruct H3 as [->|H3]; [by left | right; by right].
      * apply Forall_cons. split; [exists tm; split; [done | lia] | done].
Qed.

(** From any buffer, a run of check-ins of one user leaves that user's
    entry at the greatest timestamp among the run and the entry the
    buffer held. *)
Lemma upserts_latest u buf l :
  l ≠ [] →
  Forall (λ m, key m = u ∧ is_Some (time m)) l →
  (∀ e0, get u buf = Some e0 → is_Some (time e0)) →
  holds_latest key time u buf l (foldl put buf l).
Proof.
  intros Hne Hl Hbuf. destruct l as [|m l]; [done|]. simpl.
  pose proof Hl as Hl'. apply Forall_cons in Hl' as [[Hkm [tm Htm]] Hrest]. subst u.
  destruct (get (key m) buf) as [e0|] eqn:He0.
  - destruct (Hbuf e0 eq_refl) as [t0 Ht0].
    destruct (upserts_present (key m) buf (m :: l) e0 t0 He0 Ht0 Hl)
      as (e & t & H1 & H2 & H3 & H4 & H5).
    exists e, t. split_and!; [done | done | | | ].
    + destruct H3 as [->|H3]; [by right | by left].
    + intros x Hx. by eapply Forall_forall in H5.
    + intros e1 He1. assert (e1 = e0) as -> by congruence. exists t0. by split.
  - pose proof (entryOf_snoc_absent buf m He0) as He1.
    rewrite (upsert_absent buf m He0).
    destruct (upserts_present (key m) _ l m tm He1 Htm Hrest)
      as (e & t & H1 & H2 & H3 & H4 & H5).
    exists e, t. split_and!; [done | done | | | intros e1 Hini; congruence].
    + left. destruct H3 as [->|H3]; [by left | by right].
    + intros x Hx. apply elem_of_cons in Hx as [->|Hx]; [eauto|].
      by eapply Forall_forall in H5.
Qed.

(** The greatest timestamp is the same in whatever order the check-ins
    arrive. *)
Lemma holds_latest_timeOf u buf l l' final final' :
  l' ≡ₚ l →
  holds_latest key time u buf l final →
  holds_latest key time u buf l' final' →
  timeOf key time u final' = timeOf key time u final.
Proof.
  intros Hperm (e & t & H1 & H2 & H3 & H4 & H5) (e' & t' & H1' & H2' & H3' & H4' & H5').
  unfold timeOf. rewrite H1, H1'. simpl. rewrite H2, H2'. f_equal.
  assert (t' ≤ t).
  { destruct H3' as [Hin|Hini].
    - rewrite Hperm in Hin. destruct (H4 _ Hin) as (tm & Htm & ?). congruence.
    - destruct (H5 _ Hini) as (tm & Htm & ?). congruence. }
  assert (t ≤ t').
  { destruct H3 as [Hin|Hini].
    - rewrite <- Hperm in Hin. destruct (H4' _ Hin) as (tm & Htm & ?). congruence.
    - destruct (H5' _ Hini) as (tm & Htm & ?). congruence. }
  lia.
Qed.

Lemma entryOf_is_Some u buf : u ∈ key <$> buf → is_Some (get u buf).
Proof.
  intros Hin. destruct (get u buf) eqn:He; [done|].
  by apply entryOf_None in He.
Qed.

Lemma upsert_has_key buf x : is_Some (get (key x) (put buf x)).
Proof.
  apply entryOf_is_Some. rewrite upsert_keys.
  destruct (get (key x) buf) as [e|] eqn:He.
  - apply entryOf_Some in He as [He <-]. apply list_elem_of_fmap. eauto.
  - apply elem_of_app. right. by apply list_elem_of_singleton.
Qed.

End UpsertFacts.

Section LatestCheckIn.

Variable getTime : jsstring → option Z.

Local Abbreviation time := (λ m : NewCheckInMessage, getTime (timestamp m)).
Local Abbreviation cd_time := (λ m : CheckInData, getTime (cd_timestamp m)).

Lemma storeCheckIn_upsert buf m :
  storeCheckIn getTime buf m = upsert username time buf m.
Proof. reflexivity. Qed.

Lemma storeCheckIns_upserts buf l :
  storeCheckIns getTime buf l = foldl (upsert username time) buf l.
Proof. reflexivity. Qed.

Lemma updateView_checkIns v : checkIns (updateView getTime v).1 = checkIns v.
Proof.
  unfold updateView. destruct (viewIsReady v); [done|].
  by destruct (negb (webviewReady v) && _).
Qed.

Lemma addCheckIn_notify_checkIns v x :
  checkIns (addCheckIn_notify getTime v x).1 = checkIns v.
Proof.
  unfold addCheckIn_notify.
  destruct (negb (isVisible v)); simpl.
  - destruct (webviewReady v) eqn:Hr; simpl; [|done].
    destruct (updateView getTime _) as [v2 e3] eqn:Hu. simpl.
    change v2 with (v2, e3).1. rewrite <- Hu. by rewrite updateView_checkIns.
  - destruct (webviewReady v) eqn:Hr; simpl; [|done].
    destruct (updateView getTime _) as [v2 e3] eqn:Hu. simpl.
    change v2 with (v2, e3).1. rewrite <- Hu. by rewrite updateView_checkIns.
Qed.

(** While the list has room, or holds the user already, [addCheckIn]
    changes it as [storeCheckIn] changes the client's array. *)
Lemma addCheckIn_list_upsert v x :
  (length (checkIns v) < 100)%nat ∨ is_Some (entryOf cd_username (cd_username x) (checkIns v)) →
  addCheckIn_list getTime v x = upsert cd_username cd_time (checkIns v) x.
Proof.
  intros Hroom. unfold addCheckIn_list, addCheckIn, upsert, entryOf in *.
  destruct (findIndex _ (checkIns v)) as [i|] eqn:Hi; simpl in *.
  - destruct (checkIns v !! i) as [e|] eqn:He; [|done].
    destruct (num_gt _ _); [|done].
    by rewrite addCheckIn_notify_checkIns.
  - rewrite addCheckIn_notify_checkIns. simpl.
    destruct Hroom as [Hlt|[? ?]]; [|done].
    rewrite bool_decide_eq_false_2; [done|].
    rewrite length_app. simpl. lia.
Qed.

Lemma addCheckIns_upserts u v l :
  Forall (λ m, cd_username m = u) l →
  (length (checkIns v) < 100)%nat ∨ is_Some (entryOf cd_username u (checkIns v)) →
  checkIns (addCheckIns getTime v l) = foldl (upsert cd_username cd_time) (checkIns v) l.
Proof.
  revert v. induction l as [|x l IH]; intros v Hl Hroom; simpl; [done|].
  apply Forall_cons in Hl as [<- Hl].
  pose proof (addCheckIn_list_upsert v x Hroom) as Hstep.
  unfold addCheckIn_list in Hstep.
  unfold addCheckIns in *. rewrite IH; [by rewrite Hstep | done |].
  right. rewrite Hstep. apply upsert_has_key.
Qed.

(** C1, amended.  A run [l] of check-ins of one user [u], with timestamps that
    parse, applied with [storeCheckIn] to a client array with one entry
    per user, or with [addCheckIn] to a view list with one entry per
    user that has room or holds [u] already: the result still has one
    entry per user; the entry of [u] is one of the run (or the one held
    before) and no timestamp of the run or of the entry held before is
    greater than its own; that timestamp is the same for every order of
    arrival; and a check-in whose timestamp is not greater than the one
    held changes nothing. *)
Theorem latest_checkin_per_user (u : jsstring) (buf : list NewCheckInMessage)
    (v : SecondaryCheckInView) (l : list NewCheckInMessage) :
  l ≠ [] →
  Forall (λ m, username m = u ∧ is_Some (time m)) l →
  NoDup (username <$> buf) →
  (∀ e0, entryOf username u buf = Some e0 → is_Some (time e0)) →
  NoDup (cd_username <$> checkIns v) →
  (∀ e0, entryOf cd_username u (checkIns v) = Some e0 → is_Some (cd_time e0)) →
  (length (checkIns v) < 100)%nat ∨ is_Some (entryOf cd_username u (checkIns v)) →
  (NoDup (username <$> storeCheckIns getTime buf l) ∧
   holds_latest username time u buf l (storeCheckIns getTime buf l) ∧
   ∀ l', l' ≡ₚ l →
     timeOf username time u (storeCheckIns getTime buf l') =
     timeOf username time u (storeCheckIns getTime buf l)) ∧
  (NoDup (cd_username <$> checkIns (addCheckIns getTime v (toCheckInData <$> l))) ∧
   holds_latest cd_username cd_time u (checkIns v) (toCheckInData <$> l)
     (checkIns (addCheckIns getTime v (toCheckInData <$> l))) ∧
   ∀ l', l' ≡ₚ l →
     timeOf cd_username cd_time u (checkIns (addCheckIns getTime v (toCheckInData <$> l'))) =
     timeOf cd_username cd_time u (checkIns (addCheckIns getTime v (toCheckInData <$> l)))) ∧
  (∀ b m e, entryOf username (username m) b = Some e →
     num_gt (time m) (time e) = false → storeCheckIn getTime b m = b) ∧
  (∀ w m e, entryOf cd_username (cd_username m) (checkIns w) = Some e →
     num_gt (cd_time m) (cd_time e) = false → addCheckIn getTime w m = (w, [])).
Proof.
  intros Hne Hl Hnd Hini Hndv Hiniv Hroom.
  assert (∀ k, k ≡ₚ l →
            Forall (λ m, cd_username m = u ∧ is_Some (cd_time m)) (toCheckInData <$> k)) as Hlv.
  { intros k Hk. apply Forall_fmap. rewrite Hk. by eapply Forall_impl. }
  assert (∀ k, k ≡ₚ l →
            checkIns (addCheckIns getTime v (toCheckInData <$> k)) =
            foldl (upsert cd_username cd_time) (checkIns v) (toCheckInData <$> k)) as Hview.
  { intros k Hk. apply (addCheckIns_upserts u); [|done].
    eapply Forall_impl; [by apply Hlv|]. by intros m [? _]. }
  assert (∀ k, k ≡ₚ l → toCheckInData <$> k ≠ []) as Hnev.
  { intros k Hk Hnil. apply fmap_nil_inv in Hnil. subst k.
    by apply Permutation_nil_l in Hk. }
  split_and!.
  - rewrite storeCheckIns_upserts. by apply upserts_NoDup.
  - rewrite storeCheckIns_upserts. by apply upserts_latest.
  - intros l' Hperm. rewrite !storeCheckIns_upserts.
    eapply holds_latest_timeOf; [exact Hperm | by apply upserts_latest |].
    apply upserts_latest; [| by rewrite Hperm | done].
    intros ->. by apply Permutation_nil_l in Hperm.
  - rewrite Hview by done. by apply upserts_NoDup.
  - rewrite Hview by done. apply upserts_latest; [by apply Hnev | by apply Hlv | done].
  - intros l' Hperm. rewrite !Hview by done.
    apply (holds_latest_timeOf cd_username cd_time u (checkIns v)
             (toCheckInData <$> l) (toCheckInData <$> l')).
    + by rewrite Hperm.
    + apply upserts_latest; [by apply Hnev | by apply Hlv | done].
    + apply upserts_latest; [by apply Hnev | by apply Hlv | done].
  - intros b m e He Hgt. rewrite storeCheckIn_upsert. by eapply upsert_keep.
  - intros w m e He Hgt. unfold addCheckIn, entryOf in *.
    destruct (findIndex _ (checkIns w)) as [i|]; simpl in He; [|done].
    by rewrite He, Hgt.
Qed.

End LatestCheckIn.

Lemma latest_checkin_per_user_witness :
  holds_latest username (λ m, isoTime (timestamp m)) (js "alice") []
    [alice_1000; alice_1200; alice_0900]
    (storeCheckIns isoTime [] [alice_1000; alice_1200; alice_0900]) ∧
  storeCheckIns isoTime [] [alice_1000; alice_1200; alice_0900] = [alice_1200].
Proof.
  split; [|reflexivity].
  refine (proj1 (proj2 (proj1
    (latest_checkin_per_user isoTime (js "alice") [] newSecondaryCheckInView
       [alice_1000; alice_1200; alice_0900] _ _ _ _ _ _ _)))).
  - done.
  - repeat constructor; by eexists.
  - constructor.
  - intros e0 H. discriminate H.
  - constructor.
  - intros e0 H. discriminate H.
  - left. simpl. lia.
Defined.

(** C1 as stated fails without these hypotheses.  A check-in whose
    timestamp is not a date is kept against a later one with a date, and
    which of the two is kept depends on the order of arrival.  And a view
    that holds a hundred other users retains no entry at all for a new
    user, however many check-ins of that user it is given. *)
Lemma latest_checkin_counterexample :
  storeCheckIns isoTime [] [alice_undated; alice_1200] = [alice_undated] ∧
  storeCheckIns isoTime [] [alice_1200; alice_undated] = [alice_1200] ∧
  isoTime (timestamp alice_undated) = None ∧
  isoTime (timestamp alice_1200) = Some 1714564800000 ∧
  checkIns (addCheckIns isoTime newSecondaryCheckInView
              (toCheckInData <$> hundred ++ [newcomer; newcomer_later]))
    = toCheckInData <$> hundred ∧
  entryOf cd_username (js "zoe")
    (checkIns (addCheckIns isoTime newSecondaryCheckInView
                 (toCheckInData <$> hundred ++ [newcomer; newcomer_later])))
    = None.
Proof. by vm_compute. Qed.

(** The hypothesis on the timestamps is needed: every comparison with
    [NaN] is false, so an entry whose timestamp is not a date is never
    replaced. *)
Example invalid_date_is_never_replaced :
  storeCheckIns isoTime [] [checkInOf "alice" "yesterday" "standup"; alice_1200]
  = [checkInOf "alice" "yesterday" "standup"].
Proof. reflexivity. Qed.

(** ** Capacity *)

Section Capacity.

Variable getTime : jsstring → option Z.

Local Abbreviation time := (λ m : NewCheckInMessage, getTime (timestamp m)).
Local Abbreviation cd_time := (λ m : CheckInData, getTime (cd_timestamp m)).

(** What [addCheckIn] does to the list for a user who is not in it. *)
Lemma addCheckIn_list_absent v x :
  entryOf cd_username (cd_username x) (checkIns v) = None →
  addCheckIn_list getTime v x =
  if bool_decide (100 < length (checkIns v ++ [x]))%nat
  then take 100 (checkIns v ++ [x]) else checkIns v ++ [x].
Proof.
  intros Habs. unfold addCheckIn_list, addCheckIn, entryOf in *.
  destruct (findIndex _ (checkIns v)) as [i|] eqn:Hi; simpl in *.
  - apply findIndex_Some in Hi as (y & Hy & _). congruence.
  - by rewrite addCheckIn_notify_checkIns.
Qed.

Lemma addCheckIn_list_absent_length v x :
  entryOf cd_username (cd_username x) (checkIns v) = None →
  (length (checkIns v) ≤ 100)%nat →
  length (addCheckIn_list getTime v x) = (S (length (checkIns v)) `min` 100)%nat.
Proof.
  intros Habs Hlen. rewrite addCheckIn_list_absent by done.
  case_bool_decide as Hgt.
  - rewrite length_take. rewrite length_app in *.
    change (length [x]) with 1%nat in *. lia.
  - rewrite length_app in *. change (length [x]) with 1%nat in *. lia.
Qed.

Lemma addCheckIn_list_absent_users v x k :
  entryOf cd_username (cd_username x) (checkIns v) = None →
  k ∈ cd_username <$> addCheckIn_list getTime v x →
  k ∈ cd_username <$> checkIns v ∨ k = cd_username x.
Proof.
  intros Habs. rewrite addCheckIn_list_absent by done.
  intros Hk.
  assert (k ∈ cd_username <$> (checkIns v ++ [x])) as Hin.
  { case_bool_decide; [|done].
    apply list_elem_of_fmap in Hk as (y & -> & Hy).
    apply list_elem_of_fmap. exists y. split; [done|].
    apply elem_of_take in Hy as (i & Hi & _). by eapply list_elem_of_lookup_2. }
  rewrite fmap_app in Hin. apply elem_of_app in Hin as [?|Hin]; [by left|].
  right. by apply list_elem_of_singleton in Hin.
Qed.

Lemma addCheckIns_distinct_length v l :
  (length (checkIns v) ≤ 100)%nat →
  NoDup (cd_username <$> l) →
  (∀ x, x ∈ l → cd_username x ∉ cd_username <$> checkIns v) →
  length (checkIns (addCheckIns getTime v l)) =
  ((length (checkIns v) + length l) `min` 100)%nat.
Proof.
  revert v. induction l as [|x l IH]; intros v Hlen Hnd Hnew.
  - simpl. lia.
  - apply NoDup_cons in Hnd as [Hx Hnd].
    assert (entryOf cd_username (cd_username x) (checkIns v) = None) as Habs.
    { apply entryOf_None. apply Hnew. by left. }
    pose proof (addCheckIn_list_absent_length v x Habs Hlen) as Hstep.
    change (addCheckIns getTime v (x :: l))
      with (addCheckIns getTime (addCheckIn getTime v x).1 l).
    unfold addCheckIn_list in *. rewrite IH.
    + rewrite Hstep. change (length (x :: l)) with (S (length l)). lia.
    + rewrite Hstep. lia.
    + done.
    + intros y Hy Hin.
      apply (addCheckIn_list_absent_users v x) in Hin as [Hin| Heq]; [| | done].
      * apply (Hnew y); [by right | done].
      * apply Hx. rewrite <- Heq. apply list_elem_of_fmap. eauto.
Qed.

Lemma storeCheckIns_distinct_length buf l :
  NoDup (username <$> l) →
  (∀ m, m ∈ l → username m ∉ username <$> buf) →
  length (storeCheckIns getTime buf l) = (length buf + length l)%nat.
Proof.
  revert buf. induction l as [|x l IH]; intros buf Hnd Hnew.
  - simpl. lia.
  - apply NoDup_cons in Hnd as [Hx Hnd].
    assert (entryOf username (username x) buf = None) as Habs.
    { apply entryOf_None. apply Hnew. by left. }
    change (storeCheckIns getTime buf (x :: l))
      with (storeCheckIns getTime (storeCheckIn getTime buf x) l).
    rewrite storeCheckIn_upsert.
    rewrite (upsert_absent username time buf x Habs).
    rewrite IH; [rewrite length_app; change (length [x]) with 1%nat;
                 change (length (x :: l)) with (S (length l)); lia | done |].
    intros y Hy Hin. rewrite fmap_app in Hin.
    apply elem_of_app in Hin as [Hin|Hin].
    + apply (Hnew y); [by right | done].
    + apply list_elem_of_singleton in Hin. apply Hx. rewrite <- Hin.
      apply list_elem_of_fmap. eauto.
Qed.

(** C2, amended.  The view's list never exceeds 100 entries: check-ins
    of users new to a list of at most 100 entries, all distinct, leave
    it with as many entries as it had plus the check-ins, up to 100, so
    that a list of 100 stays at 100.  The client's array has no bound: it
    grows by one entry for every such check-in. *)
Theorem capacity_bound (v : SecondaryCheckInView) (buf : list NewCheckInMessage)
    (l : list NewCheckInMessage) :
  (length (checkIns v) ≤ 100)%nat →
  NoDup (username <$> l) →
  (∀ m, m ∈ l → username m ∉ cd_username <$> checkIns v) →
  (∀ m, m ∈ l → username m ∉ username <$> buf) →
  length (checkIns (addCheckIns getTime v (toCheckInData <$> l))) =
    ((length (checkIns v) + length l) `min` 100)%nat ∧
  length (storeCheckIns getTime buf l) = (length buf + length l)%nat.
Proof.
  intros Hlen Hnd Hv Hbuf. split.
  - rewrite addCheckIns_distinct_length.
    + by rewrite length_fmap.
    + done.
    + by rewrite <- list_fmap_compose.
    + intros x Hx. apply list_elem_of_fmap in Hx as (m & -> & Hm). by apply Hv.
  - by apply storeCheckIns_distinct_length.
Qed.

End Capacity.

Lemma capacity_bound_witness :
  length (checkIns (addCheckIns isoTime
            (set_checkIns newSecondaryCheckInView (toCheckInData <$> hundred))
            (toCheckInData <$> [newcomer]))) = 100%nat ∧
  length (storeCheckIns isoTime hundred [newcomer]) = 101%nat.
Proof.
  refine (let H := capacity_bound isoTime
           (set_checkIns newSecondaryCheckInView (toCheckInData <$> hundred))
           hundred [newcomer] _ _ _ _ in conj (proj1 H) (proj2 H)).
  - vm_compute. lia.
  - repeat constructor. intros H. by apply elem_of_nil in H.
  - intros m Hm. apply list_elem_of_singleton in Hm as ->.
    apply (proj1 (entryOf_None cd_username _ _)). by vm_compute.
  - intros m Hm. apply list_elem_of_singleton in Hm as ->.
    apply (proj1 (entryOf_None username _ _)). by vm_compute.
Defined.

(** C2 as stated fails on both paths.  After the hundred users and then
    the newcomer, whose timestamp is the latest of all, the client's array
    has 101 entries; the view's list has 100, the hundred first arrivals:
    it still holds the entry with the oldest timestamp, and holds none
    for the newcomer. *)
Lemma capacity_counterexample :
  length (storeCheckIns isoTime [] (hundred ++ [newcomer])) = 101%nat ∧
  checkIns (addCheckIns isoTime newSecondaryCheckInView
              (toCheckInData <$> hundred ++ [newcomer])) = toCheckInData <$> hundred ∧
  toCheckInData <$> hundred !! 0%nat = Some (toCheckInData (member 0)) ∧
  isoTime (timestamp (member 0)) = Some 1714550400000 ∧
  isoTime (timestamp (member 99)) = Some 1714556340000 ∧
  isoTime (timestamp newcomer) = Some 1714608000000.
Proof. by vm_compute. Qed.

(** ** Snapshots *)

Lemma sort_insert_perm {A} (compare : A → A → option Z) x l :
  sort_insert compare x l ≡ₚ x :: l.
Proof.
  induction l as [|y l IH]; simpl; [done|].
  destruct (cmp_le0 (compare x y)); [done|].
  rewrite IH. apply Permutation_swap.
Qed.

Lemma sort_perm {A} (compare : A → A → option Z) l : sort compare l ≡ₚ l.
Proof.
  induction l as [|x l IH]; simpl; [done|].
  fold (sort compare l). by rewrite sort_insert_perm, IH.
Qed.

Section Snapshot.

Variable getTime : jsstring → option Z.

Local Abbreviation valid := (λ x : CheckInData, is_Some (getTime (cd_timestamp x))).

Lemma notOlder_trans a b c :
  notOlder getTime a b → notOlder getTime b c → notOlder getTime a c.
Proof.
  intros (ta & tb & Ha & Hb & Hab) (tb' & tc & Hb' & Hc & Hbc).
  exists ta, tc. split_and!; [done | done |].
  assert (tb = tb') by congruence. lia.
Qed.

Lemma newestFirst_le0 a b :
  valid a → valid b →
  if cmp_le0 (newestFirst getTime a b) then notOlder getTime a b
  else notOlder getTime b a.
Proof.
  intros [ta Ha] [tb Hb]. unfold newestFirst, notOlder.
  rewrite Ha, Hb. simpl. case_bool_decide.
  - exists ta, tb. split_and!; [done | done | lia].
  - exists tb, ta. split_and!; [done | done | lia].
Qed.

Lemma sort_insert_sorted x l :
  valid x → Forall valid l →
  StronglySorted (notOlder getTime) l →
  StronglySorted (notOlder getTime) (sort_insert (newestFirst getTime) x l).
Proof.
  intros Hx. induction l as [|y l IH]; intros Hl Hs; simpl.
  - by repeat constructor.
  - apply Forall_cons in Hl as [Hy Hl].
    apply StronglySorted_inv in Hs as [Hs Hyl].
    pose proof (newestFirst_le0 x y Hx Hy) as Hcmp.
    destruct (cmp_le0 (newestFirst getTime x y)).
    + constructor; [by constructor|].
      constructor; [done|].
      eapply Forall_impl; [exact Hyl|]. intros z Hz.
      by eapply notOlder_trans.
    + constructor; [by apply IH|].
      rewrite sort_insert_perm. by constructor.
Qed.

Lemma sort_sorted l :
  Forall valid l →
  StronglySorted (notOlder getTime) (sort (newestFirst getTime) l).
Proof.
  induction l as [|x l IH]; intros Hl; simpl; [constructor|].
  apply Forall_cons in Hl as [Hx Hl]. fold (sort (newestFirst getTime) l).
  apply sort_insert_sorted; [done | | by apply IH].
  by rewrite sort_perm.
Qed.

(** A copy made by [[...arr]] is a new array: whatever is done to it
    leaves [arr] as it was. *)
Lemma spread_fresh {A} (h : gmap positive (list A)) (arr : positive) (elems : list A) :
  h !! arr = Some elems →
  (spread h arr).1 ≠ arr ∧
  (spread h arr).2 !! (spread h arr).1 = Some elems ∧
  (spread h arr).2 !! arr = Some elems.
Proof.
  intros Harr. unfold spread, alloc. simpl. rewrite Harr. simpl.
  assert (fresh (dom h) ≠ arr) as Hne.
  { intros Heq. apply (is_fresh (dom h)). rewrite Heq.
    apply elem_of_dom. eauto. }
  split_and!; [done | by rewrite lookup_insert_eq | by rewrite lookup_insert_ne].
Qed.

(** C3, amended.  [getAllCheckIns] returns a new array with the elements
    of the client's array in the array's own order; the array that
    [updateView] posts is a new array with the elements of the view's
    list, sorted by timestamp from the newest to the oldest when the
    timestamps parse.  Neither changes the array it copies, and no
    mutation of the copy reaches it. *)
Theorem snapshot_copies (c : WebSocketClient) (v : SecondaryCheckInView)
    (h : gmap positive (list NewCheckInMessage))
    (hv : gmap positive (list CheckInData)) (a b : positive) :
  h !! a = Some (allReceivedCheckIns c) →
  hv !! b = Some (checkIns v) →
  Forall valid (checkIns v) →
  ((getAllCheckIns_array h a).1 ≠ a ∧
   (getAllCheckIns_array h a).2 !! (getAllCheckIns_array h a).1 = Some (getAllCheckIns c) ∧
   getAllCheckIns c = allReceivedCheckIns c ∧
   (getAllCheckIns_array h a).2 !! a = Some (allReceivedCheckIns c) ∧
   ∀ f, mutate f (getAllCheckIns_array h a).1 (getAllCheckIns_array h a).2 !! a
        = Some (allReceivedCheckIns c)) ∧
  ((sortedCheckIns_array getTime hv b).1 ≠ b ∧
   (sortedCheckIns_array getTime hv b).2 !! (sortedCheckIns_array getTime hv b).1
     = Some (sortedCheckIns getTime v) ∧
   sortedCheckIns getTime v ≡ₚ checkIns v ∧
   StronglySorted (notOlder getTime) (sortedCheckIns getTime v) ∧
   (sortedCheckIns_array getTime hv b).2 !! b = Some (checkIns v) ∧
   ∀ f, mutate f (sortedCheckIns_array getTime hv b).1
          (sortedCheckIns_array getTime hv b).2 !! b = Some (checkIns v)) ∧
  (checkIns (updateView getTime v).1 = checkIns v ∧
   (viewIsReady v = true →
    PostUpdateCheckIns (sortedCheckIns getTime v) ∈ (updateView getTime v).2)).
Proof.
  intros Ha Hb Hvalid.
  destruct (spread_fresh h a _ Ha) as (Hf1 & Hf2 & Hf3).
  destruct (spread_fresh hv b _ Hb) as (Hg1 & Hg2 & Hg3).
  split_and!.
  - done.
  - done.
  - done.
  - done.
  - intros f. unfold mutate, getAllCheckIns_array. by rewrite lookup_alter_ne.
  - unfold sortedCheckIns_array. by destruct (spread hv b).
  - unfold sortedCheckIns_array, mutate, sortedCheckIns.
    destruct (spread hv b) as [r h1]. simpl in *.
    by rewrite lookup_alter_eq, Hg2.
  - apply sort_perm.
  - by apply sort_sorted.
  - unfold sortedCheckIns_array, mutate.
    destruct (spread hv b) as [r h1]. simpl in *. by rewrite lookup_alter_ne.
  - intros f. unfold sortedCheckIns_array, mutate.
    destruct (spread hv b) as [r h1]. simpl in *. by rewrite !lookup_alter_ne.
  - apply updateView_checkIns.
  - intros Hready. unfold updateView. rewrite Hready. simpl. by left.
Qed.

End Snapshot.

Lemma snapshot_copies_witness :
  sortedCheckIns isoTime
    (set_checkIns newSecondaryCheckInView
       (toCheckInData <$> [alice_0900; bob_1100]))
  ≡ₚ toCheckInData <$> [alice_0900; bob_1100] ∧
  sortedCheckIns isoTime
    (set_checkIns newSecondaryCheckInView
       (toCheckInData <$> [alice_0900; bob_1100]))
  = toCheckInData <$> [bob_1100; alice_0900].
Proof.
  split; [|reflexivity].
  refine (proj1 (proj2 (proj2 (proj1 (proj2
    (snapshot_copies isoTime
       (set_allReceivedCheckIns demo_client [alice_0900; bob_1100])
       (set_checkIns newSecondaryCheckInView (toCheckInData <$> [alice_0900; bob_1100]))
       {[ 1%positive := [alice_0900; bob_1100] ]}
       {[ 1%positive := toCheckInData <$> [alice_0900; bob_1100] ]}
       1%positive 1%positive _ _ _)))))).
  - reflexivity.
  - reflexivity.
  - repeat constructor; by eexists.
Defined.

(** C3 as stated fails for [getAllCheckIns]: after the check-in of alice
    at 09:00 and then the one of bob at 11:00 it returns them in the order
    of arrival, the older first. *)
Lemma snapshot_counterexample :
  getAllCheckIns
    (run isoTime demo_client
       [EvMessage (ParsedMessage (Msg_new_checkin alice_0900)) 1714554000250;
        EvMessage (ParsedMessage (Msg_new_checkin bob_1100)) 1714561200250]).1
  = [alice_0900; bob_1100] ∧
  isoTime (timestamp alice_0900) = Some 1714554000000 ∧
  isoTime (timestamp bob_1100) = Some 1714561200000.
Proof. by vm_compute. Qed.

(** ** Cooldown *)

Section Cooldown.

Variable getTime : jsstring → option Z.
Variable toISOString : Z → jsstring.
Variable JSON_stringify : CleanMessage → jsstring.
Variable hmac_sha256_hex : jsstring → jsstring → jsstring.
Variable config : Config.

Local Abbreviation send :=
  (sendCheckIn getTime toISOString JSON_stringify hmac_sha256_hex config).

Lemma connect_lastCheckInTime c :
  lastCheckInTime (connect c).1 = lastCheckInTime c ∧
  cooldownPeriodMs (connect c).1 = cooldownPeriodMs c.
Proof. unfold connect, connect_begin. by repeat case_match. Qed.

(** No event of the transport or of a timer touches the cooldown. *)
Lemma step_lastCheckInTime c e :
  lastCheckInTime (step getTime c e).1 = lastCheckInTime c ∧
  cooldownPeriodMs (step getTime c e).1 = cooldownPeriodMs c.
Proof.
  destruct e as [token constructed|now| |code reason|parsed now|cb now]; simpl.
  - unfold connect_withToken. by destruct constructed.
  - unfold transport_sets. by destruct (socket c).
  - done.
  - unfold transport_sets. by destruct (socket c).
  - unfold onMessage. by repeat case_match.
  - destruct cb; try done.
    + unfold connectionTimeout. by repeat case_match.
    + exact (connect_lastCheckInTime (set_reconnectInterval c _)).
    + apply connect_lastCheckInTime.
    + unfold historyComplete. by repeat case_match.
    + unfold historyComplete. by repeat case_match.
Qed.

Lemma run_lastCheckInTime c events :
  lastCheckInTime (run getTime c events).1 = lastCheckInTime c ∧
  cooldownPeriodMs (run getTime c events).1 = cooldownPeriodMs c.
Proof.
  revert c. induction events as [|e events IH]; intros c; simpl; [done|].
  destruct (step getTime c e) as [c1 effects] eqn:Hstep.
  destruct (run getTime c1 events) as [c2 later] eqn:Hrun. simpl.
  specialize (IH c1). rewrite Hrun in IH. simpl in IH.
  pose proof (step_lastCheckInTime c e) as Hs. rewrite Hstep in Hs. simpl in Hs.
  destruct IH, Hs. split; congruence.
Qed.

(** A send that resolves to [true] has set [lastCheckInTime] to the
    reading of the clock it took for it, and nothing else of the
    cooldown. *)
Lemma sendCheckIn_sets_lastCheckInTime c now clock token name tagList text randomSnippet :
  (send c now clock token name tagList text randomSnippet).2 = true →
  lastCheckInTime (send c now clock token name tagList text randomSnippet).1.1
    = at_lastCheckIn clock ∧
  cooldownPeriodMs (send c now clock token name tagList text randomSnippet).1.1
    = cooldownPeriodMs c.
Proof.
  unfold sendCheckIn, sendCheckIn_withToken, sendCheckIn_simulated,
    simulateCheckInResponse, signMessage.
  destruct (negb (canCheckIn c now)); simpl; [done|].
  by case_bool_decide.
Qed.

(** C4.  [canCheckIn()] is the comparison of the time since the last
    check-in with the cooldown period.  With a positive period, once
    [sendCheckIn] has resolved to [true] the last check-in time is the
    instant the client read for it, whatever the relay sends or does
    afterwards; at that instant [canCheckIn()] is false and the remaining
    time is the whole period; from a full period later on,
    [canCheckIn()] is true. *)
Theorem cooldown_after_send (c : WebSocketClient) (now : Z) (clock : SendClock)
    (token : option jsstring) (name : jsstring) (tagList : list jsstring)
    (text randomSnippet : jsstring) :
  0 < cooldownPeriodMs c →
  (send c now clock token name tagList text randomSnippet).2 = true →
  let c' := (send c now clock token name tagList text randomSnippet).1.1 in
  (∀ c0 t, canCheckIn c0 t = true ↔ t - lastCheckInTime c0 >= cooldownPeriodMs c0) ∧
  lastCheckInTime c' = at_lastCheckIn clock ∧
  canCheckIn c' (at_lastCheckIn clock) = false ∧
  getRemainingCooldownTime c' (at_lastCheckIn clock) = cooldownPeriodMs c ∧
  (∀ t, at_lastCheckIn clock + cooldownPeriodMs c ≤ t → canCheckIn c' t = true) ∧
  (∀ events, lastCheckInTime (run getTime c' events).1 = at_lastCheckIn clock).
Proof.
  intros Hpos Hok c'.
  destruct (sendCheckIn_sets_lastCheckInTime _ _ _ _ _ _ _ _ Hok) as [Hlast Hcd].
  fold c' in Hlast, Hcd.
  split_and!.
  - intros c0 t. unfold canCheckIn. rewrite bool_decide_eq_true. lia.
  - done.
  - unfold canCheckIn. rewrite Hlast, Hcd. apply bool_decide_eq_false. lia.
  - unfold getRemainingCooldownTime. rewrite Hlast, Hcd.
    rewrite bool_decide_eq_false_2 by lia. lia.
  - intros t Ht. unfold canCheckIn. rewrite Hlast, Hcd. apply bool_decide_eq_true. lia.
  - intros events. by rewrite (proj1 (run_lastCheckInTime c' events)).
Qed.

(** C10.  [canCheckIn()] is true exactly when
    [getRemainingCooldownTime()] is 0; and a client fresh from its
    constructor may check in, the clock reading at least one cooldown
    period past the epoch. *)
Theorem canCheckIn_iff_nothing_remains (c : WebSocketClient) (now : Z)
    (address : jsstring) :
  cooldownPeriod_minutes config * 60 * 1000 ≤ now →
  (canCheckIn c now = true ↔ getRemainingCooldownTime c now = 0) ∧
  lastCheckInTime (newWebSocketClient config address) = 0 ∧
  canCheckIn (newWebSocketClient config address) now = true.
Proof.
  intros Hnow. split_and!.
  - unfold canCheckIn, getRemainingCooldownTime.
    case_bool_decide; split; intros; [done | done | done | lia].
  - done.
  - unfold canCheckIn. simpl. apply bool_decide_eq_true. lia.
Qed.

End Cooldown.

Lemma cooldown_after_send_witness :
  0 < cooldownPeriodMs demo_client ∧
  canCheckIn
    (sendCheckIn isoTime isoString demo_stringify demo_hmac demo_config
       demo_client 1714564799000 demo_clock None (js "alice") [js "rust"]
       (js "hello") (js "snippet")).1.1 1714564800002 = false.
Proof.
  split; [done|].
  refine (proj1 (proj2 (proj2
    (cooldown_after_send isoTime isoString demo_stringify demo_hmac demo_config
       demo_client 1714564799000 demo_clock None (js "alice") [js "rust"]
       (js "hello") (js "snippet") _ _)))).
  - done.
  - reflexivity.
Defined.

Lemma canCheckIn_iff_nothing_remains_witness :
  cooldownPeriod_minutes demo_config * 60 * 1000 ≤ 1714564799000 ∧
  canCheckIn (newWebSocketClient demo_config (js "wss://relay.example")) 1714564799000 = true.
Proof.
  split; [done|].
  refine (proj2 (proj2
    (canCheckIn_iff_nothing_remains demo_config demo_client 1714564799000
       (js "wss://relay.example") _))).
  done.
Defined.

(** ** Truncation *)

Lemma substring_prefix (s : jsstring) (n : Z) :
  0 ≤ n ≤ js_length s → substring s 0 n = take (Z.to_nat n) s.
Proof.
  intros Hn. unfold substring.
  replace (Z.min (Z.max 0 0) (js_length s)) with 0 by lia.
  replace (Z.min (Z.max n 0) (js_length s)) with n by lia.
  replace (Z.min 0 n) with 0 by lia.
  replace (Z.max 0 n) with n by lia.
  done.
Qed.

Lemma truncatedMessage_short (text : jsstring) :
  js_length text ≤ 42 → truncatedMessage text = text.
Proof.
  intros Hlen. unfold truncatedMessage, MAX_CHARS.
  by rewrite bool_decide_eq_false_2 by lia.
Qed.

Lemma truncatedMessage_long (text : jsstring) :
  42 < js_length text →
  truncatedMessage text = take 42 text ∧ js_length (truncatedMessage text) = 42.
Proof.
  intros Hlen. unfold truncatedMessage, MAX_CHARS.
  rewrite bool_decide_eq_true_2 by lia.
  rewrite substring_prefix by lia.
  split; [done|].
  unfold js_length in *. rewrite length_take. lia.
Qed.

Section Truncation.

Variable getTime : jsstring → option Z.
Variable toISOString : Z → jsstring.
Variable JSON_stringify : CleanMessage → jsstring.
Variable hmac_sha256_hex : jsstring → jsstring → jsstring.
Variable config : Config.

Local Abbreviation send :=
  (sendCheckIn getTime toISOString JSON_stringify hmac_sha256_hex config).

(** C6.  The truncation leaves a text of at most 42 code units as it is
    and cuts a longer one to its first 42 code units; truncating twice
    is truncating once.  [sendCheckIn] does not look at the length to
    decide: it resolves to [true] whenever the cooldown lets it proceed,
    and what it then sends on an open socket, and what it echoes to the
    local listeners, carries the truncated text. *)
Theorem message_truncated_never_rejected (c : WebSocketClient) (now : Z)
    (clock : SendClock) (token : option jsstring) (name : jsstring)
    (tagList : list jsstring) (text randomSnippet : jsstring) :
  (js_length text ≤ 42 → truncatedMessage text = text) ∧
  (42 < js_length text →
     truncatedMessage text = take 42 text ∧ js_length (truncatedMessage text) = 42) ∧
  truncatedMessage (truncatedMessage text) = truncatedMessage text ∧
  (send c now clock token name tagList text randomSnippet).2 = canCheckIn c now ∧
  (canCheckIn c now = true → socket c = Some OPEN →
     ∃ sent, (send c now clock token name tagList text randomSnippet).1.2 !! 0%nat
               = Some (SocketSend sent) ∧
             ci_message sent = truncatedMessage text) ∧
  (canCheckIn c now = true →
     ∃ echo, SetTimeout (CbLocalEcho echo) 500
               ∈ (send c now clock token name tagList text randomSnippet).1.2 ∧
             message echo = truncatedMessage text).
Proof.
  split_and!.
  - apply truncatedMessage_short.
  - apply truncatedMessage_long.
  - destruct (decide (js_length text ≤ 42)) as [Hle|Hgt].
    + rewrite (truncatedMessage_short text Hle). by apply truncatedMessage_short.
    + apply truncatedMessage_short.
      destruct (truncatedMessage_long text) as [_ ->]; lia.
  - unfold sendCheckIn, sendCheckIn_withToken, sendCheckIn_simulated,
      simulateCheckInResponse, signMessage.
    destruct (canCheckIn c now); simpl; [|done]. by case_bool_decide.
  - intros Hcan Hopen.
    unfold sendCheckIn, sendCheckIn_withToken, signMessage.
    rewrite Hcan. simpl. rewrite bool_decide_eq_true_2 by done. simpl.
    eexists. split; [reflexivity|]. done.
  - intros Hcan.
    unfold sendCheckIn, sendCheckIn_withToken, sendCheckIn_simulated,
      simulateCheckInResponse, signMessage.
    rewrite Hcan. simpl. case_bool_decide; simpl.
    + eexists. split; [right; left|]. done.
    + eexists. split; [left|]. done.
Qed.

End Truncation.

Lemma message_truncated_never_rejected_witness :
  42 < js_length long_text ∧
  truncatedMessage long_text = js "012345678901234567890123456789012345678901" ∧
  (sendCheckIn isoTime isoString demo_stringify demo_hmac demo_config
     demo_client 1714564799000 demo_clock None (js "alice") [js "rust"]
     long_text (js "snippet")).2 = true.
Proof.
  split; [done|]. split.
  - refine (proj1 (proj1 (proj2
      (message_truncated_never_rejected isoTime isoString demo_stringify demo_hmac
         demo_config demo_client 1714564799000 demo_clock None (js "alice")
         [js "rust"] long_text (js "snippet"))) _)).
    done.
  - reflexivity.
Defined.

(** ** Signing *)

Section SigningFacts.

Variable JSON_stringify : CleanMessage → jsstring.
Variable hmac_sha256_hex : jsstring → jsstring → jsstring.

(** C8.  Two payloads that agree on [type], [username], [tags],
    [message], [timestamp], [avatarUrl] and [snippet], signed at the same
    instant with the same secret, get the same signature and signing
    timestamp, whatever their [token], [signature] and
    [signatureTimestamp] fields hold. *)
Theorem signature_of_seven_fields (config1 config2 : Config)
    (m1 m2 : CheckInMessage) (now : Z) :
  signing_secret config1 = signing_secret config2 →
  ci_type m1 = ci_type m2 →
  ci_username m1 = ci_username m2 →
  ci_tags m1 = ci_tags m2 →
  ci_message m1 = ci_message m2 →
  ci_timestamp m1 = ci_timestamp m2 →
  ci_avatarUrl m1 = ci_avatarUrl m2 →
  ci_snippet m1 = ci_snippet m2 →
  signMessage JSON_stringify hmac_sha256_hex config1 m1 now =
  signMessage JSON_stringify hmac_sha256_hex config2 m2 now.
Proof.
  intros Hs H1 H2 H3 H4 H5 H6 H7. unfold signMessage, cleanMessage.
  by rewrite Hs, H1, H2, H3, H4, H5, H6, H7.
Qed.

End SigningFacts.

Lemma signature_of_seven_fields_witness :
  signMessage demo_stringify demo_hmac demo_config
    {| ci_type := js "checkin"; ci_username := js "alice"; ci_tags := [js "rust"];
       ci_message := js "hello"; ci_timestamp := js "2024-05-01T12:00:00.000Z";
       ci_avatarUrl := None; ci_snippet := None;
       ci_token := Some (js "token-1"); ci_signature := None;
       ci_signatureTimestamp := None |} 1714564800001 =
  signMessage demo_stringify demo_hmac demo_config
    {| ci_type := js "checkin"; ci_username := js "alice"; ci_tags := [js "rust"];
       ci_message := js "hello"; ci_timestamp := js "2024-05-01T12:00:00.000Z";
       ci_avatarUrl := None; ci_snippet := None;
       ci_token := Some (js "token-2"); ci_signature := Some (js "stale");
       ci_signatureTimestamp := Some (js "0") |} 1714564800001.
Proof.
  apply (signature_of_seven_fields demo_stringify demo_hmac demo_config demo_config);
    reflexivity.
Defined.

(** ** Reconnecting *)

Lemma grow_capped (a : Q) :
  Qmin (Qmin a 30000 * 1.5) 30000 == Qmin (a * 1.5) 30000.
Proof.
  destruct (Q.min_spec a 30000) as [[H1 E1]|[H1 E1]];
  destruct (Q.min_spec (Qmin a 30000 * 1.5) 30000) as [[H2 E2]|[H2 E2]];
  destruct (Q.min_spec (a * 1.5) 30000) as [[H3 E3]|[H3 E3]];
  rewrite E2, E3; rewrite ?E1 in *; lra.
Qed.

Lemma Qpower_succ_nat (q : Q) (n : nat) :
  ¬ q == 0 → q ^ Z.of_nat (S n) == q ^ Z.of_nat n * q.
Proof.
  intros Hq. rewrite Nat2Z.inj_succ. unfold Z.succ.
  rewrite Qpower_plus by done. by rewrite Qpower_1_r.
Qed.

Section Reconnecting.

Variable getTime : jsstring → option Z.

Lemma connect_reconnectInterval c :
  reconnectInterval (connect c).1 = reconnectInterval c ∧
  autoReconnect (connect c).1 = autoReconnect c.
Proof. unfold connect, connect_begin. by repeat case_match. Qed.

(** Only the ['open'] handler and the reconnect timer write the
    interval. *)
Lemma step_reconnectInterval c e :
  reconnectInterval (step getTime c e).1 =
    (if isOpenEvent e then 5000
     else if isReconnectTimer e then Qmin (reconnectInterval c * 1.5) 30000
     else reconnectInterval c)%Q ∧
  autoReconnect (step getTime c e).1 = autoReconnect c.
Proof.
  destruct e as [token constructed|now| |code reason|parsed now|cb now]; simpl.
  - unfold connect_withToken. by destruct constructed.
  - unfold transport_sets. by destruct (socket c).
  - done.
  - unfold transport_sets. by destruct (socket c).
  - unfold onMessage. by repeat case_match.
  - destruct cb; try done.
    + unfold connectionTimeout. by repeat case_match.
    + exact (connect_reconnectInterval (set_reconnectInterval c _)).
    + apply connect_reconnectInterval.
    + unfold historyComplete. by repeat case_match.
    + unfold historyComplete. by repeat case_match.
Qed.

Lemma run_cons c e events :
  run getTime c (e :: events) =
  ((run getTime (step getTime c e).1 events).1,
   (step getTime c e).2 :: (run getTime (step getTime c e).1 events).2).
Proof.
  cbn [run]. destruct (step getTime c e) as [c1 effects]. cbn [fst snd].
  by destruct (run getTime c1 events).
Qed.

Lemma reconnectTimers_cons e events :
  reconnectTimers (e :: events) =
  if isReconnectTimer e then S (reconnectTimers events) else reconnectTimers events.
Proof.
  unfold reconnectTimers. rewrite filter_cons.
  destruct (isReconnectTimer e); by case_decide.
Qed.

(** Without an ['open'], the interval after a run is the base interval
    grown once for every firing of the reconnect timer, up to the cap. *)
Lemma run_reconnectInterval events c (j : nat) :
  reconnectInterval c == Qmin (5000 * 1.5 ^ Z.of_nat j) 30000 →
  Forall (λ e, isOpenEvent e = false) events →
  reconnectInterval (run getTime c events).1
    == Qmin (5000 * 1.5 ^ Z.of_nat (j + reconnectTimers events)) 30000 ∧
  autoReconnect (run getTime c events).1 = autoReconnect c.
Proof.
  revert c j. induction events as [|e events IH]; intros c j Hc Hno.
  - simpl. unfold reconnectTimers. simpl. by rewrite Nat.add_0_r.
  - apply Forall_cons in Hno as [He Hno].
    rewrite run_cons, reconnectTimers_cons. cbn [fst].
    destruct (step_reconnectInterval c e) as [Hstep Hauto].
    rewrite He in Hstep.
    destruct (isReconnectTimer e) eqn:Hre.
    + destruct (IH (step getTime c e).1 (S j)) as [IH1 IH2]; [|done|].
      * rewrite Hstep, Hc, grow_capped.
        rewrite Qpower_succ_nat by done. by rewrite Qmult_assoc.
      * split; [|congruence].
        rewrite IH1. by rewrite Nat.add_succ_comm.
    + destruct (IH (step getTime c e).1 j) as [IH1 IH2]; [|done|].
      * by rewrite Hstep.
      * split; [done | congruence].
Qed.

Lemma close_schedules_interval c code reason :
  autoReconnect c = true →
  authFailure code reason = false →
  scheduledReconnect (step getTime c (EvClose code reason)).2
    = Some (reconnectInterval c).
Proof.
  intros Hauto Hfail. simpl. unfold onClose. fold (authFailure code reason).
  rewrite Hfail. unfold transport_sets.
  destruct (socket c); simpl; rewrite Hauto; done.
Qed.

Lemma unattended_events rounds :
  Forall (λ e, isOpenEvent e = false) (unattended rounds) ∧
  reconnectTimers (unattended rounds) = length rounds.
Proof.
  unfold unattended. induction rounds as [|r rounds [IH1 IH2]].
  - split; [constructor | done].
  - rewrite bind_cons. split.
    + apply Forall_app. split; [by repeat constructor | done].
    + cbn [app]. rewrite !reconnectTimers_cons. cbn [isReconnectTimer length].
      by rewrite IH2.
Qed.

(** C5, amended.  The close handler, for a close that is not an
    authentication failure, schedules the reconnect after the current
    interval; the interval is 5000 ms at first, grows by half, up to
    30000 ms, each time a reconnect timer fires, and is put back to 5000
    by the ['open'] handler.  So, from a client at the base interval,
    through a run without an ['open'] in which the reconnect timer has
    fired [k] times, the next close schedules the reconnect after
    [min (5000 * 1.5 ^ k) 30000] ms.  When the client is left to itself
    (each failure's timer fires and makes the next attempt, nothing else
    calls [connect()]), that is the delay of failure number [k + 1] after
    [k] failures. *)
Theorem reconnect_delay_grows (c : WebSocketClient) (events : list Event)
    (k : nat) (rounds : list (Z * option jsstring * option jsstring))
    (code : Z) (reason : option jsstring) :
  reconnectInterval c == 5000 →
  autoReconnect c = true →
  Forall (λ e, isOpenEvent e = false) events →
  reconnectTimers events = k →
  Forall (λ r, authFailure r.1.1 r.1.2 = false) rounds →
  authFailure code reason = false →
  (∃ delay,
     scheduledReconnect (step getTime (run getTime c events).1 (EvClose code reason)).2
       = Some delay ∧
     delay == Qmin (5000 * 1.5 ^ Z.of_nat k) 30000) ∧
  (∃ delay,
     scheduledReconnect
       (step getTime (run getTime c (unattended rounds)).1 (EvClose code reason)).2
       = Some delay ∧
     delay == Qmin (5000 * 1.5 ^ Z.of_nat (length rounds)) 30000) ∧
  (∀ c0 now, reconnectInterval (onOpen c0 now).1 = 5000%Q) ∧
  (∀ c0 now, reconnectInterval (step getTime c0 (EvOpen now)).1 = 5000%Q).
Proof.
  intros Hc Hauto Hno Hk _ Hfail.
  assert (reconnectInterval c == Qmin (5000 * 1.5 ^ Z.of_nat 0) 30000) as Hbase.
  { rewrite Hc. simpl. by vm_compute. }
  split_and!.
  - destruct (run_reconnectInterval events c 0 Hbase Hno) as [Hrun Hrun_auto].
    exists (reconnectInterval (run getTime c events).1). split.
    + apply close_schedules_interval; [by rewrite Hrun_auto | done].
    + rewrite Hrun. simpl. by rewrite Hk.
  - destruct (unattended_events rounds) as [Hno' Hcount].
    destruct (run_reconnectInterval (unattended rounds) c 0 Hbase Hno')
      as [Hrun Hrun_auto].
    exists (reconnectInterval (run getTime c (unattended rounds)).1). split.
    + apply close_schedules_interval; [by rewrite Hrun_auto | done].
    + rewrite Hrun. simpl. by rewrite Hcount.
  - done.
  - intros c0 now. by destruct (step_reconnectInterval c0 (EvOpen now)) as [-> _].
Qed.

End Reconnecting.

Lemma reconnect_delay_grows_witness :
  ∃ delay,
    scheduledReconnect
      (step isoTime
         (run isoTime demo_client (failedAttempt ++ failedAttempt)).1
         (EvClose 1006 None)).2 = Some delay ∧
    delay == Qmin (5000 * 1.5 ^ 2) 30000.
Proof.
  refine (proj1 (reconnect_delay_grows isoTime demo_client
                   (failedAttempt ++ failedAttempt) 2
                   [(1006, None, None); (1006, None, None)] 1006 None _ _ _ _ _ _)).
  - reflexivity.
  - reflexivity.
  - repeat constructor.
  - reflexivity.
  - repeat constructor.
  - reflexivity.
Defined.

(** C5 as stated fails when something else calls [connect()] while a
    reconnect timer is pending, for no timer is ever cancelled.  After a
    first close [updateAuthStatus(true)] reconnects and the new socket
    opens: the interval is back at 5000.  The timer of the first close then fires and grows it,
    so that the first failure after the open waits 7500 ms.  And when the
    socket that call made closes before the timer has fired,
    this second failure in a row waits 5000 ms. *)
Lemma reconnect_delay_counterexample :
  reconnectInterval reopened_client = 5000%Q ∧
  socket after_stale_timer = Some OPEN ∧
  (∃ first,
     scheduledReconnect (step isoTime after_stale_timer (EvClose 1006 None)).2
       = Some first ∧ first == 7500) ∧
  (∃ second,
     scheduledReconnect (step isoTime reconnected_by_user (EvClose 1006 None)).2
       = Some second ∧ second == 5000).
Proof.
  split_and!; [reflexivity | reflexivity | |]; eexists; split; reflexivity.
Qed.

(** Closes a goal [x ∉ l] for a list [l] built from explicit effects none
    of which is [x]. *)
Ltac not_among :=
  let Hin := fresh "Hin" in
  intros Hin;
  repeat match type of Hin with
         | _ ∈ _ ++ _ => apply elem_of_app in Hin as [Hin|Hin]
         | _ ∈ _ :: _ => apply elem_of_cons in Hin as [Hin|Hin]
         | _ ∈ [] => by apply elem_of_nil in Hin
         | _ = _ => discriminate Hin
         end.

(** ** A second [connect()] *)

(** C7, amended.  While the socket is connecting or open, [connect()]
    leaves the client as it is and neither makes a socket nor closes one.
    On an open socket it fires the connection status [true]; on a
    connecting one it fires nothing, it only logs that the attempt is
    skipped. *)
Theorem connect_again_is_noop (c : WebSocketClient) :
  socket c = Some CONNECTING ∨ socket c = Some OPEN →
  (connect c).1 = c ∧
  (connect c).2 =
    (if bool_decide (socket c = Some OPEN)
     then [ConsoleLog; FireConnectionStatusChanged true]
     else [ConsoleLog]) ∧
  (GetAuthToken ∉ (connect c).2) ∧
  (SocketClose ∉ (connect c).2) ∧
  (∀ address token, NewWebSocket address token ∉ (connect c).2).
Proof.
  intros [H|H]; unfold connect; rewrite H; simpl;
    (split_and!; [done | done | | | intros address token]); not_among.
Qed.

Lemma connect_again_is_noop_witness :
  socket open_client = Some OPEN ∧
  connect open_client = (open_client, [ConsoleLog; FireConnectionStatusChanged true]).
Proof.
  split; [reflexivity|].
  pose proof (connect_again_is_noop open_client (or_intror eq_refl)) as (H1 & H2 & _).
  rewrite (surjective_pairing (connect open_client)), H1, H2. reflexivity.
Defined.

(** C7 as stated fails while the socket is connecting: the second
    [connect()] fires no status event. *)
Lemma connect_again_counterexample :
  socket connecting_client = Some CONNECTING ∧
  connect connecting_client = (connecting_client, [ConsoleLog]).
Proof. split; reflexivity. Qed.

(** ** Messages that are not understood *)

Section Receiving.

Variable getTime : jsstring → option Z.

(** C9.  The handler acts on the three types ['new_checkin'],
    ['online_users'] and ['error'].  Data that does not parse, or that
    parses to anything else, changes nothing in the client (the array of
    check-ins, the count of online users and the socket are as before)
    and closes nothing; the failure to parse is logged.  An understood
    message does not close the socket either. *)
Theorem unhandled_message_dropped (c : WebSocketClient) (parsed : Parsed) (now : Z) :
  handled parsed = false →
  (onMessage getTime c parsed now).1 = c ∧
  (onMessage getTime c parsed now).2 =
    (if parsed is ParseThrows then [ConsoleError] else []) ∧
  allReceivedCheckIns (onMessage getTime c parsed now).1 = allReceivedCheckIns c ∧
  onlineUsersCount (onMessage getTime c parsed now).1 = onlineUsersCount c ∧
  socket (onMessage getTime c parsed now).1 = socket c ∧
  (∀ p t, socket (onMessage getTime c p t).1 = socket c ∧
          (SocketClose ∉ (onMessage getTime c p t).2)) ∧
  (∀ p, handled p = true →
     (∃ m, p = ParsedMessage (Msg_new_checkin m)) ∨
     (∃ count, p = ParsedMessage (Msg_online_users count)) ∨
     (∃ text, p = ParsedMessage (Msg_error text))).
Proof.
  intros Hdrop.
  assert ((onMessage getTime c parsed now).1 = c ∧
          (onMessage getTime c parsed now).2 =
            (if parsed is ParseThrows then [ConsoleError] else [])) as [H1 H2].
  { destruct parsed as [|[m|m|count|text]|]; simpl in *; done. }
  split_and!; [done | done | by rewrite H1 | by rewrite H1 | by rewrite H1 | |].
  - intros p t. destruct p as [|[m|m|count|text]|]; simpl;
      repeat case_match; simpl; (split; [done|]);
      not_among.
  - intros p Hp. destruct p as [|[m|m|count|text]|]; simpl in Hp; try done; eauto.
Qed.

End Receiving.

Lemma unhandled_message_dropped_witness :
  onMessage isoTime open_client ParseThrows 1714564800500 = (open_client, [ConsoleError]).
Proof.
  pose proof (unhandled_message_dropped isoTime open_client ParseThrows
                1714564800500 eq_refl) as (H1 & H2 & _).
  rewrite (surjective_pairing (onMessage _ _ _ _)), H1, H2. reflexivity.
Defined.

(** * Further properties *)

(** ** The history of recent files *)

Lemma set_delete_absent (s : list jsstring) (x : jsstring) :
  x ∉ s → set_delete s x = s.
Proof.
  intros Hx. unfold set_delete. induction s as [|a s IH]; [done|].
  rewrite filter_cons. apply not_elem_of_cons in Hx as [Hne Hx].
  rewrite decide_True by done. f_equal. by apply IH.
Qed.

Lemma set_delete_spec (s : list jsstring) (x y : jsstring) :
  y ∈ set_delete s x ↔ y ∈ s ∧ y ≠ x.
Proof. unfold set_delete. rewrite list_elem_of_filter. tauto. Qed.

Lemma set_delete_NoDup (s : list jsstring) (x : jsstring) :
  NoDup s → NoDup (set_delete s x).
Proof. apply NoDup_filter. Qed.

Lemma set_delete_length (s : list jsstring) (x : jsstring) :
  (length (set_delete s x) ≤ length s)%nat.
Proof. apply length_filter. Qed.

Lemma set_add_absent (s : list jsstring) (x : jsstring) :
  x ∉ s → set_add s x = s ++ [x].
Proof. intros Hx. unfold set_add. by rewrite bool_decide_eq_false_2. Qed.

Lemma set_add_NoDup (s : list jsstring) (x : jsstring) :
  NoDup s → NoDup (set_add s x).
Proof.
  intros Hs. unfold set_add. case_bool_decide; [done|].
  apply NoDup_app. split_and!; [done | | apply NoDup_singleton].
  intros y Hy Hin. apply list_elem_of_singleton in Hin. by subst.
Qed.

(** [addFile] on a set: the file goes to the end, and the first element
    goes when that makes more than thirty. *)
Lemma addFile_spec (s : list jsstring) (f : jsstring) :
  NoDup s →
  FileHistoryTracker.addFile s f =
  if bool_decide (30 < length (set_delete s f ++ [f]))%nat
  then drop 1 (set_delete s f ++ [f])
  else set_delete s f ++ [f].
Proof.
  intros Hs. unfold FileHistoryTracker.addFile, FileHistoryTracker.maxHistorySize, set_has.
  assert ((if bool_decide (f ∈ s) then set_delete s f else s) = set_delete s f) as ->.
  { case_bool_decide; [done|]. by rewrite set_delete_absent. }
  rewrite set_add_absent.
  2:{ intros Hin. apply set_delete_spec in Hin as [_ Hne]. done. }
  case_bool_decide; [|done].
  assert (NoDup (set_delete s f ++ [f])) as Hnd.
  { rewrite <- set_add_absent.
    - by apply set_add_NoDup, set_delete_NoDup.
    - intros Hin. apply set_delete_spec in Hin as [_ Hne]. done. }
  destruct (set_delete s f ++ [f]) as [|h t]; [done|].
  apply NoDup_cons in Hnd as [Hh _]. simpl.
  unfold set_delete at 1. rewrite filter_cons, decide_False by (intros Hne; done).
  by apply set_delete_absent.
Qed.

Lemma addFile_invariant (s : list jsstring) (f : jsstring) :
  NoDup s → (length s ≤ 30)%nat →
  NoDup (FileHistoryTracker.addFile s f) ∧
  (length (FileHistoryTracker.addFile s f) ≤ 30)%nat.
Proof.
  intros Hs Hlen. rewrite addFile_spec by done.
  assert (NoDup (set_delete s f ++ [f])) as Hnd.
  { rewrite <- set_add_absent.
    - by apply set_add_NoDup, set_delete_NoDup.
    - intros Hin. apply set_delete_spec in Hin as [_ Hne]. done. }
  pose proof (set_delete_length s f) as Hdel.
  case_bool_decide as Hgt.
  - split.
    + destruct (set_delete s f ++ [f]) as [|h t]; [done|].
      by apply NoDup_cons in Hnd as [_ Hnd].
    + rewrite length_drop, length_app in *. change (length [f]) with 1%nat in *. lia.
  - split; [done|]. lia.
Qed.

(** X1.  Whatever files are added, in whatever order and however often,
    the tracker holds each file once and never more than thirty. *)
Theorem tracker_holds_at_most_thirty (files : list jsstring) :
  NoDup (FileHistoryTracker.getRecentFiles (foldl FileHistoryTracker.addFile [] files)) ∧
  (length (FileHistoryTracker.getRecentFiles
             (foldl FileHistoryTracker.addFile [] files)) ≤ 30)%nat.
Proof.
  unfold FileHistoryTracker.getRecentFiles.
  assert (∀ s, NoDup s → (length s ≤ 30)%nat →
               NoDup (foldl FileHistoryTracker.addFile s files) ∧
               (length (foldl FileHistoryTracker.addFile s files) ≤ 30)%nat) as H.
  { induction files as [|f files IH]; intros s Hs Hlen; simpl; [done|].
    destruct (addFile_invariant s f Hs Hlen). by apply IH. }
  apply H; [constructor | simpl; lia].
Qed.

(** X2.  On a tracker in its invariant, the file just added is the most
    recent one (the last of [getRecentFiles]), adding it again changes
    nothing, and adding a file the tracker holds already evicts none: the
    files are the same, in a new order. *)
Theorem added_file_is_most_recent (s : list jsstring) (f : jsstring) :
  NoDup s → (length s ≤ 30)%nat →
  last (FileHistoryTracker.getRecentFiles (FileHistoryTracker.addFile s f)) = Some f ∧
  FileHistoryTracker.addFile (FileHistoryTracker.addFile s f) f
    = FileHistoryTracker.addFile s f ∧
  (f ∈ s → FileHistoryTracker.addFile s f ≡ₚ s).
Proof.
  intros Hs Hlen. unfold FileHistoryTracker.getRecentFiles.
  pose proof (set_delete_length s f) as Hdel.
  assert (f ∉ set_delete s f) as Hnotin.
  { intros Hin. apply set_delete_spec in Hin as [_ Hne]. done. }
  assert (last (FileHistoryTracker.addFile s f) = Some f) as Hlast.
  { rewrite addFile_spec by done. case_bool_decide as Hgt; [|apply last_snoc].
    destruct (set_delete s f) as [|h t] eqn:Hd.
    - simpl in Hgt. lia.
    - simpl. rewrite drop_0. apply last_snoc. }
  split_and!; [done | |].
  - destruct (addFile_invariant s f Hs Hlen) as [Hnd Hle].
    rewrite (addFile_spec (FileHistoryTracker.addFile s f) f Hnd).
    apply last_Some in Hlast as [r Hr].
    assert (set_delete (FileHistoryTracker.addFile s f) f = r) as Hdr.
    { rewrite Hr in Hnd |- *. apply NoDup_app in Hnd as (_ & Hdis & _).
      unfold set_delete. rewrite filter_app, filter_cons, decide_False, filter_nil
        by (intros Hne; done).
      rewrite app_nil_r. apply set_delete_absent.
      intros Hin. apply (Hdis f Hin). by left. }
    rewrite Hdr, <- Hr. by rewrite bool_decide_eq_false_2 by lia.
  - intros Hin. rewrite addFile_spec by done.
    assert (set_delete s f ++ [f] ≡ₚ s) as Hperm.
    { clear Hlen Hdel Hnotin Hlast. induction s as [|a s IH]; [by apply elem_of_nil in Hin|].
      apply NoDup_cons in Hs as [Ha Hs]. unfold set_delete. rewrite filter_cons.
      destruct (decide (a = f)) as [->|Hne].
      - rewrite decide_False by (intros Hne; done).
        fold (set_delete s f). rewrite set_delete_absent by done.
        by rewrite Permutation_app_comm.
      - rewrite decide_True by done. simpl. fold (set_delete s f).
        apply Permutation_skip, IH; [done|].
        apply elem_of_cons in Hin as [?|?]; [by subst|done]. }
    rewrite bool_decide_eq_false_2; [done|].
    rewrite Hperm. lia.
Qed.

(** X3.  A thirty-first file pushes out the oldest one and no other: the
    rest keep their order, and the new file comes last. *)
Theorem thirty_first_file_evicts_oldest (s : list jsstring) (f : jsstring) :
  NoDup s → length s = 30%nat → f ∉ s →
  FileHistoryTracker.addFile s f = drop 1 s ++ [f].
Proof.
  intros Hs Hlen Hf. rewrite addFile_spec by done.
  rewrite set_delete_absent by done.
  rewrite bool_decide_eq_true_2.
  - destruct s as [|h t]; [done|]. simpl. by rewrite !drop_0.
  - rewrite length_app. change (length [f]) with 1%nat. lia.
Qed.

(** ** Tags *)

Lemma set_add_spec (s : list jsstring) (x y : jsstring) :
  y ∈ set_add s x ↔ y ∈ s ∨ y = x.
Proof.
  unfold set_add. case_bool_decide as Hx.
  - split; [by left|]. intros [?|Heq]; [done | by subst].
  - rewrite elem_of_app, list_elem_of_singleton. tauto.
Qed.

Lemma set_of_array_spec (arr : list jsstring) :
  NoDup (set_of_array arr) ∧ ∀ y, y ∈ set_of_array arr ↔ y ∈ arr.
Proof.
  unfold set_of_array.
  assert (∀ s, NoDup s →
            NoDup (foldl set_add s arr) ∧
            ∀ y, y ∈ foldl set_add s arr ↔ y ∈ s ∨ y ∈ arr) as H.
  { induction arr as [|a arr IH]; intros s Hs; simpl.
    - split; [done|]. intros y. rewrite elem_of_nil. tauto.
    - destruct (IH (set_add s a) (set_add_NoDup s a Hs)) as [Hnd Hin].
      split; [done|]. intros y. rewrite Hin, set_add_spec, elem_of_cons. tauto. }
  destruct (H [] (NoDup_nil_2)) as [Hnd Hin]. split; [done|].
  intros y. rewrite Hin, elem_of_nil. tauto.
Qed.

Lemma ownProperty_Some key table mapped :
  ownProperty key table = Some mapped → (key, mapped) ∈ table.
Proof.
  induction table as [|[k v] table IH]; simpl; [done|].
  case_bool_decide as Hk.
  - intros [= <-]. subst. by left.
  - intros H. right. by apply IH.
Qed.

Lemma getProperty_Inherited key :
  getProperty key = Inherited ↔ key ∈ objectPrototypeNames.
Proof.
  unfold getProperty. split.
  - destruct (ownProperty key extensionMappings); [done|].
    by case_bool_decide.
  - intros Hin.
    assert (Forall (λ k, ownProperty k extensionMappings = None) objectPrototypeNames)
      as Hnone by (repeat constructor).
    rewrite Forall_forall in Hnone. rewrite (Hnone key Hin).
    by rewrite bool_decide_eq_true_2.
Qed.

Lemma forEach_invariant {S A} (P : S → Prop) (body : S → A → option S) arr st st' :
  (∀ s x s', x ∈ arr → P s → body s x = Some s' → P s') →
  P st → forEach body arr st = Some st' → P st'.
Proof.
  revert st. induction arr as [|x arr IH]; intros st Hbody Hst; simpl.
  - by intros [= <-].
  - destruct (body st x) as [s1|] eqn:Hb; simpl; [|done].
    apply IH.
    + intros s y s' Hy. apply Hbody. by right.
    + eapply Hbody; [by left | done | done].
Qed.

Section TagsFacts.

Variable extname : jsstring → jsstring.
Variable toLowerCase : jsstring → jsstring.

Local Abbreviation ext := (fileExtensionOf extname toLowerCase).
Local Abbreviation process := (processFileForTags extname toLowerCase).

Lemma processFileForTags_None filePath languageId allTags :
  process filePath languageId allTags = None ↔ ext filePath ∈ objectPrototypeNames.
Proof.
  unfold processFileForTags. rewrite <- getProperty_Inherited.
  case_bool_decide as Hne.
  - destruct (getProperty (ext filePath)); split; done.
  - split; [done|]. rewrite Hne. done.
Qed.

Lemma processFileForTags_Some filePath languageId allTags allTags' t :
  process filePath languageId allTags = Some allTags' →
  t ∈ allTags' →
  t ∈ allTags ∨
  (languageId = Some t ∧ t ≠ js "plaintext") ∨
  (∃ k mapped, (k, mapped) ∈ extensionMappings ∧ t ∈ mapped).
Proof.
  unfold processFileForTags. intros Hp Ht.
  assert (∀ l, t ∈ match languageId with
                   | Some id =>
                       if bool_decide (id ≠ []) && bool_decide (id ≠ js "plaintext")
                       then allTags ++ [id] else allTags
                   | None => allTags
                   end → l = () →
               t ∈ allTags ∨ (languageId = Some t ∧ t ≠ js "plaintext")) as Hlang.
  { intros _ Hin _. destruct languageId as [id|]; [|by left].
    destruct (bool_decide (id ≠ [])) eqn:H1; simpl in Hin; [|by left].
    case_bool_decide as H2; [|by left].
    apply elem_of_app in Hin as [?|Hin]; [by left|].
    apply list_elem_of_singleton in Hin as ->. by right. }
  case_bool_decide as Hne.
  - destruct (getProperty (ext filePath)) as [mapped| |] eqn:Hg; [| done |].
    + injection Hp as <-. apply elem_of_app in Ht as [Ht|Ht].
      * destruct (Hlang () Ht eq_refl) as [?|?]; [by left | right; by left].
      * right. right. unfold getProperty in Hg.
        destruct (ownProperty _ _) as [m|] eqn:Ho; [|by case_bool_decide].
        injection Hg as ->. apply ownProperty_Some in Ho. eauto.
    + injection Hp as <-.
      destruct (Hlang () Ht eq_refl) as [?|?]; [by left | right; by left].
  - injection Hp as <-.
    destruct (Hlang () Ht eq_refl) as [?|?]; [by left | right; by left].
Qed.

Lemma mapped_not_plaintext k mapped :
  (k, mapped) ∈ extensionMappings → js "plaintext" ∉ mapped.
Proof.
  assert (Forall (λ p, js "plaintext" ∉ p.2) extensionMappings) as H.
  { repeat constructor; simpl; not_among. }
  rewrite Forall_forall in H. intros Hin. exact (H _ Hin).
Qed.

(** X4.  When [getActiveFileTags] returns, it returns at most three tags,
    all different; each is the language of a visible editor on a file or
    an entry of the extension table, and none is ['plaintext']. *)
Theorem active_tags_are_few_and_distinct (visibleEditors : list TextEditor)
    (recentFiles : list jsstring) (result : list jsstring) :
  getActiveFileTags extname toLowerCase visibleEditors recentFiles = Some result →
  (length result ≤ 3)%nat ∧
  NoDup result ∧
  (∀ t, t ∈ result → tagSource visibleEditors t ∧ t ≠ js "plaintext").
Proof.
  unfold getActiveFileTags. intros H.
  destruct (forEach _ visibleEditors _) as [st1|] eqn:H1; simpl in H; [|done].
  destruct (forEach _ recentFiles st1) as [st2|] eqn:H2; simpl in H; [|done].
  injection H as <-.
  destruct (set_of_array_spec st2.2) as [Hnd Hin].
  pose (P := λ st : list jsstring * list jsstring,
          ∀ t, t ∈ st.2 → tagSource visibleEditors t ∧ t ≠ js "plaintext").
  assert (P st1) as HP1.
  { eapply (forEach_invariant P); [| |exact H1].
    - intros s e s' He Hs Hbody t Ht. unfold visitEditor in Hbody.
      case_bool_decide as Hscheme; [injection Hbody as <-; by apply Hs|].
      destruct (process _ _ _) as [tags'|] eqn:Hp; simpl in Hbody; [|done].
      injection Hbody as <-. simpl in Ht.
      destruct (processFileForTags_Some _ _ _ _ t Hp Ht) as [?|[[Hl ?]|(k & m & Hk & Hm)]].
      + by apply Hs.
      + injection Hl as Hl. split; [|done]. left. eauto.
      + split; [right; eauto|]. intros ->. by eapply mapped_not_plaintext.
    - intros t Ht. by apply elem_of_nil in Ht. }
  assert (P st2) as HP2.
  { eapply (forEach_invariant P); [| exact HP1 |exact H2].
    intros s f s' Hf Hs Hbody t Ht. unfold visitRecentFile in Hbody.
    destruct (set_has s.1 f); [injection Hbody as <-; by apply Hs|].
    destruct (process _ _ _) as [tags'|] eqn:Hp; simpl in Hbody; [|done].
    injection Hbody as <-. simpl in Ht.
    destruct (processFileForTags_Some _ _ _ _ t Hp Ht) as [?|[[Hl ?]|(k & m & Hk & Hm)]].
    - by apply Hs.
    - done.
    - split; [right; eauto|]. intros ->. by eapply mapped_not_plaintext. }
  split_and!.
  - rewrite length_take. lia.
  - eapply sublist_NoDup; [exact Hnd | apply sublist_take].
  - intros t Ht. apply HP2, Hin.
    apply elem_of_take in Ht as (i & Hi & _). by eapply list_elem_of_lookup_2.
Qed.

Lemma visitEditor_None st e :
  visitEditor extname toLowerCase st e = None ↔
  document_scheme e = js "file" ∧ ext (document_fileName e) ∈ objectPrototypeNames.
Proof.
  unfold visitEditor. case_bool_decide as Hscheme.
  - split; [done|]. by intros [? _].
  - destruct (process _ _ _) as [tags'|] eqn:Hp; cbn [mbind option_bind].
    + split; [done|]. intros [_ Hx].
      apply (processFileForTags_None _ (Some (document_languageId e)) st.2) in Hx.
      rewrite Hp in Hx. done.
    + split; [|done]. intros _. split; [done|]. by eapply processFileForTags_None.
Qed.

Lemma visitEditor_processed st e st' :
  visitEditor extname toLowerCase st e = Some st' →
  ∀ f, f ∈ st'.1 ↔
       f ∈ st.1 ∨ (document_scheme e = js "file" ∧ f = document_fileName e).
Proof.
  unfold visitEditor. case_bool_decide as Hscheme.
  - intros [= <-] f. tauto.
  - destruct (process _ _ _) as [tags'|]; cbn [mbind option_bind]; [|done].
    intros [= <-] f. simpl. rewrite set_add_spec. tauto.
Qed.

Lemma visitRecentFile_None st f :
  visitRecentFile extname toLowerCase st f = None ↔
  (f ∉ st.1) ∧ ext f ∈ objectPrototypeNames.
Proof.
  unfold visitRecentFile, set_has. case_bool_decide as Hseen.
  - split; [done|]. by intros [? _].
  - destruct (process _ _ _) as [tags'|] eqn:Hp; cbn [mbind option_bind].
    + split; [done|]. intros [_ Hx].
      apply (processFileForTags_None _ None st.2) in Hx. rewrite Hp in Hx. done.
    + split; [|done]. intros _. split; [done|]. by eapply processFileForTags_None.
Qed.

Lemma visitRecentFile_processed st f st' :
  visitRecentFile extname toLowerCase st f = Some st' → st'.1 = st.1.
Proof.
  unfold visitRecentFile. destruct (set_has st.1 f); [by intros [= <-]|].
  destruct (process _ _ _) as [tags'|]; cbn [mbind option_bind]; [|done].
  by intros [= <-].
Qed.

Lemma visitEditors_None visibleEditors st :
  forEach (visitEditor extname toLowerCase) visibleEditors st = None ↔
  ∃ e, e ∈ visibleEditors ∧ document_scheme e = js "file" ∧
       ext (document_fileName e) ∈ objectPrototypeNames.
Proof.
  revert st. induction visibleEditors as [|e eds IH]; intros st; cbn [forEach].
  - split; [done|]. intros (e & He & _). by apply elem_of_nil in He.
  - destruct (visitEditor extname toLowerCase st e) as [s1|] eqn:Hv;
      cbn [mbind option_bind].
    + rewrite IH. split.
      * intros (e' & He' & ?). exists e'. split; [by right | done].
      * intros (e' & He' & Hs & Hx). apply elem_of_cons in He' as [->|He']; [|eauto].
        assert (visitEditor extname toLowerCase st e = None) as Hn
          by (by apply visitEditor_None).
        congruence.
    + split; [|done]. intros _. apply visitEditor_None in Hv as [? ?].
      exists e. split; [by left | done].
Qed.

Lemma visitEditors_processed visibleEditors st st' :
  forEach (visitEditor extname toLowerCase) visibleEditors st = Some st' →
  ∀ f, f ∈ st'.1 ↔
       f ∈ st.1 ∨
       f ∈ document_fileName <$> filter (λ e, document_scheme e = js "file") visibleEditors.
Proof.
  revert st. induction visibleEditors as [|e eds IH]; intros st; cbn [forEach].
  - intros [= <-] f. rewrite filter_nil, fmap_nil, elem_of_nil. tauto.
  - destruct (visitEditor extname toLowerCase st e) as [s1|] eqn:Hv;
      cbn [mbind option_bind]; [|done].
    intros H f. rewrite (IH _ H f), (visitEditor_processed _ _ _ Hv f).
    rewrite filter_cons. destruct (decide (document_scheme e = js "file")) as [Hs|Hs].
    + rewrite fmap_cons, elem_of_cons. tauto.
    + tauto.
Qed.

Lemma visitRecentFiles_None recentFiles st :
  forEach (visitRecentFile extname toLowerCase) recentFiles st = None ↔
  ∃ f, f ∈ recentFiles ∧ (f ∉ st.1) ∧ ext f ∈ objectPrototypeNames.
Proof.
  revert st. induction recentFiles as [|f fs IH]; intros st; cbn [forEach].
  - split; [done|]. intros (f & Hf & _). by apply elem_of_nil in Hf.
  - destruct (visitRecentFile extname toLowerCase st f) as [s1|] eqn:Hv;
      cbn [mbind option_bind].
    + rewrite IH, (visitRecentFile_processed _ _ _ Hv). split.
      * intros (f' & Hf' & ?). exists f'. split; [by right | done].
      * intros (f' & Hf' & Hn & Hx). apply elem_of_cons in Hf' as [->|Hf']; [|eauto].
        assert (visitRecentFile extname toLowerCase st f = None) as Hnone
          by (by apply visitRecentFile_None).
        congruence.
    + split; [|done]. intros _. apply visitRecentFile_None in Hv as [? ?].
      exists f. split; [by left | done].
Qed.

(** X5.  [getActiveFileTags] throws exactly when one of the files it
    looks at (the files of the visible editors, and the tracker's files
    that are not among them) has, for its lower-cased extension, the name
    of a property that the table inherits from [Object.prototype], such as
    [constructor] or [__proto__]: the table then yields a value that is
    not an array, and spreading it is a [TypeError]. *)
Theorem active_tags_throw_on_inherited_names (visibleEditors : list TextEditor)
    (recentFiles : list jsstring) :
  getActiveFileTags extname toLowerCase visibleEditors recentFiles = None ↔
  ∃ f, f ∈ processedPaths visibleEditors recentFiles ∧
       ext f ∈ objectPrototypeNames.
Proof.
  unfold getActiveFileTags, processedPaths.
  destruct (forEach _ visibleEditors _) as [st1|] eqn:H1; simpl.
  - pose proof (visitEditors_processed _ _ _ H1) as Hseen. simpl in Hseen.
    assert (forEach (visitEditor extname toLowerCase) visibleEditors ([], []) ≠ None)
      as Hno by (by rewrite H1).
    rewrite visitEditors_None in Hno.
    destruct (forEach _ recentFiles st1) as [st2|] eqn:H2; simpl.
    + split; [done|]. intros (f & Hf & Hx). exfalso.
      assert (forEach (visitRecentFile extname toLowerCase) recentFiles st1 ≠ None)
        as Hno2 by (by rewrite H2).
      rewrite visitRecentFiles_None in Hno2.
      apply elem_of_app in Hf as [Hf|Hf].
      * apply list_elem_of_fmap in Hf as (e & -> & He).
        apply list_elem_of_filter in He as [Hs He]. apply Hno. eauto.
      * apply list_elem_of_filter in Hf as [Hn Hf]. apply Hno2.
        exists f. split_and!; [done | | done].
        rewrite Hseen, elem_of_nil. tauto.
    + split; [|done]. intros _.
      apply visitRecentFiles_None in H2 as (f & Hf & Hn & Hx).
      exists f. split; [|done]. apply elem_of_app. right.
      apply list_elem_of_filter. split; [|done].
      intros Hin. apply Hn, Hseen. by right.
  - split; [|done]. intros _.
    apply visitEditors_None in H1 as (e & He & Hs & Hx).
    exists (document_fileName e). split; [|done].
    apply elem_of_app. left. apply list_elem_of_fmap. exists e. split; [done|].
    by apply list_elem_of_filter.
Qed.

End TagsFacts.

(** ** The tree view's list *)

Lemma provider_addCheckIn_absent (l : list CheckInProvider.CheckInData)
    (x : CheckInProvider.CheckInData) :
  (∀ y, y ∈ l → (CheckInProvider.username y, CheckInProvider.timestamp y)
                ≠ (CheckInProvider.username x, CheckInProvider.timestamp x)) →
  (CheckInProvider.addCheckIn l x).1 = take 100 (x :: l).
Proof.
  intros Habs. unfold CheckInProvider.addCheckIn, CheckInProvider.maxCheckIns.
  assert (findIndex (λ c, bool_decide (CheckInProvider.username c = CheckInProvider.username x)
                          && bool_decide (CheckInProvider.timestamp c = CheckInProvider.timestamp x)) l
          = None) as ->.
  { apply findIndex_None. intros y Hy. apply andb_false_iff.
    destruct (decide (CheckInProvider.username y = CheckInProvider.username x)) as [Hu|Hu];
      [|left; by apply bool_decide_eq_false].
    right. apply bool_decide_eq_false. intros Ht. apply (Habs y Hy). congruence. }
  cbn [fst]. case_bool_decide as Hlen; [done|].
  symmetry. apply take_ge. lia.
Qed.

Lemma provider_addCheckIn_length (l : list CheckInProvider.CheckInData)
    (x : CheckInProvider.CheckInData) :
  (length l ≤ 100)%nat → (length (CheckInProvider.addCheckIn l x).1 ≤ 100)%nat.
Proof.
  intros Hlen. unfold CheckInProvider.addCheckIn, CheckInProvider.maxCheckIns.
  cbn [fst]. destruct (findIndex _ l) as [i|].
  - by rewrite length_insert.
  - case_bool_decide as Hgt.
    + rewrite length_take. lia.
    + lia.
Qed.

(** X6.  The tree view never holds more than a hundred check-ins,
    whatever it is given. *)
Theorem provider_holds_at_most_100 (l : list CheckInProvider.CheckInData) :
  (length (CheckInProvider.addCheckIns [] l) ≤ 100)%nat.
Proof.
  unfold CheckInProvider.addCheckIns.
  assert (∀ acc, (length acc ≤ 100)%nat →
            (length (foldl (λ acc x, (CheckInProvider.addCheckIn acc x).1) acc l) ≤ 100)%nat)
    as H.
  { induction l as [|x l IH]; intros acc Hacc; [done|].
    cbn [foldl]. by apply IH, provider_addCheckIn_length. }
  apply H. simpl. lia.
Qed.

(** X7.  Given check-ins that differ in user or timestamp, the tree view
    holds the hundred latest arrivals, the latest first: at a hundred, the
    one to go is the oldest arrival. *)
Theorem provider_keeps_latest_arrivals (l : list CheckInProvider.CheckInData) :
  NoDup ((λ x, (CheckInProvider.username x, CheckInProvider.timestamp x)) <$> l) →
  CheckInProvider.addCheckIns [] l = take 100 (reverse l).
Proof.
  unfold CheckInProvider.addCheckIns.
  induction l as [|x l IH] using rev_ind; intros Hnd; [done|].
  rewrite fmap_app in Hnd. apply NoDup_app in Hnd as (Hl & Hdis & _).
  rewrite foldl_snoc, IH by done.
  rewrite provider_addCheckIn_absent.
  - rewrite reverse_snoc.
    change (take 100 (x :: take 100 (reverse l))) with (x :: take 99 (take 100 (reverse l))).
    change (take 100 (x :: reverse l)) with (x :: take 99 (reverse l)).
    by rewrite take_take.
  - intros y Hy Heq. apply elem_of_take in Hy as (i & Hi & _).
    apply list_elem_of_lookup_2 in Hi. rewrite elem_of_reverse in Hi.
    apply (Hdis (CheckInProvider.username y, CheckInProvider.timestamp y)).
    + apply list_elem_of_fmap. exists y. by split.
    + rewrite Heq. by left.
Qed.

(** ** The side-bar list and the client's array *)

Lemma findIndex_fmap {A B} (f : A → B) (p : B → bool) (l : list A) :
  findIndex p (f <$> l) = findIndex (λ x, p (f x)) l.
Proof.
  induction l as [|a l IH]; [done|].
  cbn [fmap list_fmap findIndex]. fold (f <$> l). by rewrite IH.
Qed.

Lemma pushPending_NoDup (pending : list CheckInData) (x : CheckInData) :
  NoDup (cd_username <$> pending) → NoDup (cd_username <$> pushPending pending x).
Proof.
  intros Hnd. unfold pushPending, some.
  destruct (existsb _ pending) eqn:Hex; [done|].
  rewrite fmap_app. apply NoDup_app. split_and!; [done | | apply NoDup_singleton].
  intros k Hk Hin. apply list_elem_of_singleton in Hin as ->.
  apply list_elem_of_fmap in Hk as (y & Hy & Hin).
  assert (existsb (λ c, bool_decide (cd_username c = cd_username x)) pending = true)
    as Htrue; [|congruence].
  apply existsb_exists. exists y. split; [by apply list_elem_of_In|].
  by apply bool_decide_eq_true.
Qed.

Section ViewFacts.

Variable getTime : jsstring → option Z.

Local Abbreviation time := (λ m : NewCheckInMessage, getTime (timestamp m)).
Local Abbreviation cd_time := (λ m : CheckInData, getTime (cd_timestamp m)).

Lemma updateView_pending v :
  NoDup (cd_username <$> pendingCheckIns v) →
  NoDup (cd_username <$> pendingCheckIns (updateView getTime v).1).
Proof.
  intros Hnd. unfold updateView. destruct (viewIsReady v); [constructor|].
  destruct (negb (webviewReady v) && _); [|done]. simpl.
  generalize dependent (pendingCheckIns v).
  induction (checkIns v) as [|x l IH]; intros p Hp; [done|].
  simpl. by apply IH, pushPending_NoDup.
Qed.

Lemma addCheckIn_pending v x :
  NoDup (cd_username <$> pendingCheckIns v) →
  NoDup (cd_username <$> pendingCheckIns (addCheckIn getTime v x).1).
Proof.
  intros Hnd.
  assert (∀ w, pendingCheckIns w = pendingCheckIns v →
               NoDup (cd_username <$> pendingCheckIns (addCheckIn_notify getTime w x).1))
    as Hnotify.
  { intros w Hw. unfold addCheckIn_notify.
    destruct (negb (isVisible w)); simpl.
    - destruct (webviewReady w); simpl.
      + destruct (updateView getTime _) as [v2 e3] eqn:Hu. simpl.
        change v2 with (v2, e3).1. rewrite <- Hu. apply updateView_pending.
        simpl. by rewrite Hw.
      + apply pushPending_NoDup. by rewrite Hw.
    - destruct (webviewReady w); simpl.
      + destruct (updateView getTime _) as [v2 e3] eqn:Hu. simpl.
        change v2 with (v2, e3).1. rewrite <- Hu. apply updateView_pending.
        by rewrite Hw.
      + apply pushPending_NoDup. by rewrite Hw. }
  unfold addCheckIn.
  destruct (findIndex _ (checkIns v)) as [i|].
  - destruct (checkIns v !! i); [|done].
    destruct (num_gt _ _); [|done]. by apply Hnotify.
  - by apply Hnotify.
Qed.

Lemma addCheckIn_list_invariant v x :
  NoDup (cd_username <$> checkIns v) → (length (checkIns v) ≤ 100)%nat →
  NoDup (cd_username <$> addCheckIn_list getTime v x) ∧
  (length (addCheckIn_list getTime v x) ≤ 100)%nat.
Proof.
  intros Hnd Hlen.
  destruct (entryOf cd_username (cd_username x) (checkIns v)) as [e|] eqn:He.
  - rewrite addCheckIn_list_upsert by (right; by rewrite He).
    split; [by apply upsert_NoDup|].
    rewrite <- (length_fmap cd_username), upsert_keys, He, length_fmap. done.
  - split.
    + rewrite addCheckIn_list_absent by done.
      assert (NoDup (cd_username <$> (checkIns v ++ [x]))) as Hpush.
      { rewrite <- (upsert_absent cd_username cd_time) by done. by apply upsert_NoDup. }
      case_bool_decide; [|done].
      rewrite fmap_take. eapply sublist_NoDup; [exact Hpush | apply sublist_take].
    + rewrite addCheckIn_list_absent_length by done. lia.
Qed.

(** X8.  Whatever check-ins the side-bar view is given, in whatever
    order, its list keeps one entry per user and at most a hundred
    entries, and the list of check-ins that wait for the webview keeps one
    entry per user. *)
Theorem view_list_invariants (v : SecondaryCheckInView) (l : list CheckInData) :
  NoDup (cd_username <$> checkIns v) →
  (length (checkIns v) ≤ 100)%nat →
  NoDup (cd_username <$> pendingCheckIns v) →
  NoDup (cd_username <$> checkIns (addCheckIns getTime v l)) ∧
  (length (checkIns (addCheckIns getTime v l)) ≤ 100)%nat ∧
  NoDup (cd_username <$> pendingCheckIns (addCheckIns getTime v l)).
Proof.
  revert v. induction l as [|x l IH]; intros v Hnd Hlen Hpend; [done|].
  change (addCheckIns getTime v (x :: l))
    with (addCheckIns getTime (addCheckIn getTime v x).1 l).
  destruct (addCheckIn_list_invariant v x Hnd Hlen) as [H1 H2].
  apply IH; [done | done | by apply addCheckIn_pending].
Qed.

Lemma upsert_toCheckInData buf x :
  upsert cd_username cd_time (toCheckInData <$> buf) (toCheckInData x) =
  toCheckInData <$> upsert username time buf x.
Proof.
  unfold upsert. rewrite findIndex_fmap. simpl.
  destruct (findIndex _ buf) as [i|]; [|by rewrite fmap_app].
  rewrite list_lookup_fmap. destruct (buf !! i) as [e|]; simpl; [|done].
  destruct (num_gt _ _); [|done]. by rewrite list_fmap_insert.
Qed.

Lemma upsert_length_mono buf x :
  (length buf ≤ length (upsert username time buf x))%nat.
Proof.
  rewrite <- !(length_fmap username), upsert_keys.
  destruct (entryOf _ _ _); [done|]. rewrite length_app. lia.
Qed.

Lemma storeCheckIns_length_mono buf l :
  (length buf ≤ length (storeCheckIns getTime buf l))%nat.
Proof.
  revert buf. induction l as [|x l IH]; intros buf; [done|].
  change (storeCheckIns getTime buf (x :: l))
    with (storeCheckIns getTime (storeCheckIn getTime buf x) l).
  etrans; [|apply IH]. rewrite storeCheckIn_upsert. apply upsert_length_mono.
Qed.

(** X9.  As long as the client's array holds no more than a hundred
    users, the side-bar list is its mirror: given the check-ins the client
    stores, in the same order, the view holds the same entries in the
    same places. *)
Theorem view_mirrors_client (buf : list NewCheckInMessage) (v : SecondaryCheckInView)
    (l : list NewCheckInMessage) :
  checkIns v = toCheckInData <$> buf →
  (length (storeCheckIns getTime buf l) ≤ 100)%nat →
  checkIns (addCheckIns getTime v (toCheckInData <$> l)) =
  toCheckInData <$> storeCheckIns getTime buf l.
Proof.
  revert buf v. induction l as [|x l IH]; intros buf v Hv Hlen; [done|].
  change (storeCheckIns getTime buf (x :: l))
    with (storeCheckIns getTime (storeCheckIn getTime buf x) l) in *.
  change (addCheckIns getTime v (toCheckInData <$> x :: l))
    with (addCheckIns getTime (addCheckIn getTime v (toCheckInData x)).1
            (toCheckInData <$> l)).
  apply IH; [|done].
  pose proof (storeCheckIns_length_mono (storeCheckIn getTime buf x) l) as Hmono.
  fold (addCheckIn_list getTime v (toCheckInData x)).
  rewrite storeCheckIn_upsert in *. rewrite <- upsert_toCheckInData, <- Hv.
  apply addCheckIn_list_upsert.
  destruct (entryOf cd_username (cd_username (toCheckInData x)) (checkIns v)) as [e|] eqn:He;
    [by right|]. left.
  assert (length (upsert cd_username cd_time (checkIns v) (toCheckInData x))
          = S (length (checkIns v))) as Hgrow.
  { rewrite upsert_absent by done. rewrite length_app. simpl. lia. }
  rewrite Hv, upsert_toCheckInData, !length_fmap in Hgrow.
  rewrite Hv, length_fmap. lia.
Qed.

End ViewFacts.

(** ** What every client keeps *)

Section ClientFacts.

Variable getTime : jsstring → option Z.
Variable toISOString : Z → jsstring.
Variable JSON_stringify : CleanMessage → jsstring.
Variable hmac_sha256_hex : jsstring → jsstring → jsstring.
Variable config : Config.

Local Abbreviation act :=
  (perform getTime toISOString JSON_stringify hmac_sha256_hex config).
Local Abbreviation acts :=
  (performAll getTime toISOString JSON_stringify hmac_sha256_hex config).
Local Abbreviation send :=
  (sendCheckIn getTime toISOString JSON_stringify hmac_sha256_hex config).

Lemma connect_allReceivedCheckIns c :
  allReceivedCheckIns (connect c).1 = allReceivedCheckIns c.
Proof. unfold connect, connect_begin. by repeat case_match. Qed.

Lemma disconnect_frame c :
  allReceivedCheckIns (disconnect c).1 = allReceivedCheckIns c ∧
  reconnectInterval (disconnect c).1 = reconnectInterval c ∧
  lastCheckInTime (disconnect c).1 = lastCheckInTime c ∧
  autoReconnect (disconnect c).1 = autoReconnect c.
Proof. unfold disconnect. by repeat case_match. Qed.

Lemma sendCheckIn_frame c now clock token name tagList text randomSnippet :
  reconnectInterval (send c now clock token name tagList text randomSnippet).1.1
    = reconnectInterval c ∧
  socket (send c now clock token name tagList text randomSnippet).1.1 = socket c.
Proof.
  unfold sendCheckIn, sendCheckIn_withToken, sendCheckIn_simulated,
    simulateCheckInResponse, signMessage.
  destruct (negb (canCheckIn c now)); simpl; [done|].
  by case_bool_decide.
Qed.

Lemma step_NoDup c e :
  NoDup (username <$> allReceivedCheckIns c) →
  NoDup (username <$> allReceivedCheckIns (step getTime c e).1).
Proof.
  intros Hnd.
  destruct e as [token constructed|now| |code reason|parsed now|cb now]; simpl.
  - unfold connect_withToken. by destruct constructed.
  - unfold transport_sets. by destruct (socket c).
  - done.
  - unfold transport_sets. by destruct (socket c).
  - destruct parsed as [|[m|m|count|text]|]; simpl; try done.
    destruct (receivingInitialHistory c); simpl;
      rewrite storeCheckIn_upsert; by apply upsert_NoDup.
  - destruct cb; try done.
    + unfold connectionTimeout. by repeat case_match.
    + unfold reconnectTimer. by rewrite connect_allReceivedCheckIns.
    + by rewrite connect_allReceivedCheckIns.
    + unfold historyComplete. by repeat case_match.
    + unfold historyComplete. by repeat case_match.
Qed.

Lemma sendCheckIn_NoDup c now clock token name tagList text randomSnippet :
  NoDup (username <$> allReceivedCheckIns c) →
  NoDup (username <$>
           allReceivedCheckIns (send c now clock token name tagList text randomSnippet).1.1).
Proof.
  intros Hnd.
  unfold sendCheckIn, sendCheckIn_withToken, sendCheckIn_simulated,
    simulateCheckInResponse, signMessage.
  destruct (negb (canCheckIn c now)); simpl; [done|].
  case_bool_decide; simpl; rewrite storeCheckIn_upsert; by apply upsert_NoDup.
Qed.

(** X10.  Whatever a client goes through from its construction on
    (events of the socket and of the timers, check-ins sent, disconnects),
    its array of received check-ins holds at most one entry per user. *)
Theorem client_keeps_one_entry_per_user (address : jsstring) (actions : list Action) :
  NoDup (username <$>
           allReceivedCheckIns (acts (newWebSocketClient config address) actions)).
Proof.
  unfold performAll.
  assert (∀ c, NoDup (username <$> allReceivedCheckIns c) →
               NoDup (username <$> allReceivedCheckIns (foldl act c actions))) as H.
  { induction actions as [|a actions IH]; intros c Hc; [done|].
    cbn [foldl]. apply IH. destruct a; simpl.
    - by apply step_NoDup.
    - by apply sendCheckIn_NoDup.
    - by rewrite (proj1 (disconnect_frame c)). }
  apply H. constructor.
Qed.

(** X11.  Whatever a client goes through from its construction on, the
    delay it would wait before the next reconnect stays between 5000 and
    30000 milliseconds. *)
Theorem reconnect_interval_stays_in_range (address : jsstring) (actions : list Action) :
  (5000 <= reconnectInterval (acts (newWebSocketClient config address) actions))%Q ∧
  (reconnectInterval (acts (newWebSocketClient config address) actions) <= 30000)%Q.
Proof.
  unfold performAll.
  assert (∀ c, (5000 <= reconnectInterval c)%Q ∧ (reconnectInterval c <= 30000)%Q →
               (5000 <= reconnectInterval (foldl act c actions))%Q ∧
               (reconnectInterval (foldl act c actions) <= 30000)%Q) as H.
  { induction actions as [|a actions IH]; intros c Hc; [done|].
    cbn [foldl]. apply IH. destruct a; simpl.
    - destruct (step_reconnectInterval getTime c e) as [-> _].
      destruct (isOpenEvent e); [split; by vm_compute|].
      destruct (isReconnectTimer e); [|done].
      destruct (Q.min_spec (reconnectInterval c * 1.5) 30000) as [[H1 E]|[H1 E]];
        rewrite E; split; lra.
    - by rewrite (proj1 (sendCheckIn_frame c _ _ _ _ _ _ _)).
    - destruct (disconnect_frame c) as (_ & -> & _). done. }
  apply H. simpl. split; by vm_compute.
Qed.

End ClientFacts.

(** ** The end of the initial history *)

Section HistoryFacts.

Variable getTime : jsstring → option Z.

Local Abbreviation fired :=
  (λ effects : list Effect, length (filter (λ e, isHistoryReceived e = true) effects)).

Lemma connect_withToken_history c token constructed :
  fired (connect_withToken c token constructed).2 = 0%nat ∧
  receivingInitialHistory (connect_withToken c token constructed).1
    = receivingInitialHistory c.
Proof. unfold connect_withToken. by repeat case_match. Qed.

Lemma historyComplete_history c :
  (fired (historyComplete c).2 ≤ 1)%nat ∧
  receivingInitialHistory (historyComplete c).1 = false ∨
  fired (historyComplete c).2 = 0%nat ∧ (historyComplete c).1 = c.
Proof.
  unfold historyComplete.
  destruct (receivingInitialHistory c && negb (initialHistoryReceived c));
    [left | right]; split; simpl; done || lia.
Qed.

Local Ltac quiet :=
  simpl; split;
    [right; split; [reflexivity | first [reflexivity | congruence]]
    | intros _; reflexivity].

(** A step that is not a call of [connect()] fires the event at most
    once, leaves the client out of the initial history when it does, and
    neither fires it nor puts the client back when it is out already. *)
Lemma step_history c e :
  callsConnect e = false →
  ((fired (step getTime c e).2 = 1%nat ∧
    receivingInitialHistory (step getTime c e).1 = false) ∨
   (fired (step getTime c e).2 = 0%nat ∧
    receivingInitialHistory (step getTime c e).1 = receivingInitialHistory c)) ∧
  (receivingInitialHistory c = false → fired (step getTime c e).2 = 0%nat).
Proof.
  intros Hno.
  destruct e as [token constructed|now| |code reason|parsed now|cb now]; simpl.
  - unfold connect_withToken. destruct constructed; [quiet|].
    destruct (autoReconnect c); quiet.
  - unfold transport_sets. destruct (socket c); quiet.
  - quiet.
  - unfold onClose, transport_sets.
    destruct (socket c); simpl;
      destruct (bool_decide (code = 4000) || _); simpl; try quiet;
      destruct (autoReconnect c); quiet.
  - destruct parsed as [|[m|m|count|text]|]; simpl; try quiet.
    destruct (receivingInitialHistory c) eqn:Hr; simpl; [|quiet].
    destruct (historyTimeout c); quiet.
  - destruct cb; simpl in Hno; try done; simpl; try quiet.
    + unfold connectionTimeout. destruct (socket c) as [[]|]; quiet.
    + unfold historyComplete.
      destruct (receivingInitialHistory c) eqn:Hr; simpl; [|quiet].
      destruct (initialHistoryReceived c); simpl; [quiet|].
      split; [left; split; reflexivity | intros Hr'; congruence].
    + unfold historyComplete.
      destruct (receivingInitialHistory c) eqn:Hr; simpl; [|quiet].
      destruct (initialHistoryReceived c); simpl; [quiet|].
      split; [left; split; reflexivity | intros Hr'; congruence].
    + unfold cooldownTick. case_bool_decide; quiet.
Qed.

Lemma historyReceivedCount_cons effects later :
  historyReceivedCount (effects :: later) =
  (fired effects + historyReceivedCount later)%nat.
Proof.
  unfold historyReceivedCount. cbn [concat]. by rewrite filter_app, length_app.
Qed.

Lemma run_history_out events c :
  Forall (λ e, callsConnect e = false) events →
  receivingInitialHistory c = false →
  historyReceivedCount (run getTime c events).2 = 0%nat.
Proof.
  revert c. induction events as [|e events IH]; intros c Hno Hout; [done|].
  apply Forall_cons in Hno as [He Hno].
  rewrite run_cons. cbn [snd]. rewrite historyReceivedCount_cons.
  destruct (step_history c e He) as [Hstep Hzero].
  rewrite (Hzero Hout), IH; [done | done |].
  destruct Hstep as [[_ ?]|[_ ?]]; congruence.
Qed.

(** X12.  Between two calls of [connect()], that is in a run in which
    neither the reconnect timer nor the retry timer fires, the client fires
    [onHistoryReceived] at most once, however the messages, the idle timer
    and the three-second ceiling interleave. *)
Theorem history_received_at_most_once (c : WebSocketClient) (events : list Event) :
  Forall (λ e, callsConnect e = false) events →
  (historyReceivedCount (run getTime c events).2 ≤ 1)%nat.
Proof.
  revert c. induction events as [|e events IH]; intros c Hno; [vm_compute; lia|].
  apply Forall_cons in Hno as [He Hno].
  rewrite run_cons. cbn [snd]. rewrite historyReceivedCount_cons.
  destruct (step_history c e He) as [[[Hone Hout]|[Hzero _]] _].
  - rewrite Hone, run_history_out by done. lia.
  - rewrite Hzero. by apply IH.
Qed.

End HistoryFacts.

Lemma history_received_at_most_once_witness :
  historyReceivedCount
    (run isoTime connecting_client
       [EvOpen 1714564800000;
        EvMessage (ParsedMessage (Msg_new_checkin alice_0900)) 1714564800100;
        EvMessage (ParsedMessage (Msg_new_checkin bob_1100)) 1714564800300;
        EvTimer CbHistoryIdle 1714564801300;
        EvTimer CbHistoryCeiling 1714564803000]).2 = 1%nat.
Proof.
  pose proof (history_received_at_most_once isoTime connecting_client
    [EvOpen 1714564800000;
     EvMessage (ParsedMessage (Msg_new_checkin alice_0900)) 1714564800100;
     EvMessage (ParsedMessage (Msg_new_checkin bob_1100)) 1714564800300;
     EvTimer CbHistoryIdle 1714564801300;
     EvTimer CbHistoryCeiling 1714564803000]
    ltac:(repeat constructor)) as H.
  reflexivity.
Defined.

(** ** Disconnecting *)

(** X13.  [disconnect()] always fires the status [false], leaves the
    client not connected, and touches neither the check-ins nor the
    cooldown; a [connect()] after it never takes the socket for connecting
    or open: it starts a new attempt (it asks for the token). *)
Theorem disconnect_then_connect_starts_anew (c : WebSocketClient) :
  FireConnectionStatusChanged false ∈ (disconnect c).2 ∧
  isConnected (disconnect c).1 = false ∧
  allReceivedCheckIns (disconnect c).1 = allReceivedCheckIns c ∧
  lastCheckInTime (disconnect c).1 = lastCheckInTime c ∧
  GetAuthToken ∈ (connect (disconnect c).1).2 ∧
  socket (connect (disconnect c).1).1 = None.
Proof.
  unfold disconnect, connect, connect_begin, isConnected.
  destruct (socket c) as [[]|] eqn:Hs; simpl; rewrite ?Hs; simpl;
    split_and!; try done; set_solver.
Qed.

(** X14.  [disconnect()] does not stop the reconnecting: it leaves the
    listeners of the socket it closes in place, and when that socket then
    emits ['close'] (not for an authentication failure) the handler
    schedules a reconnect after the current interval, whose timer calls
    [connect()], which starts a new attempt. *)
Theorem disconnect_is_undone_by_reconnect (c : WebSocketClient) (code : Z)
    (reason : option jsstring) :
  autoReconnect c = true →
  authFailure code reason = false →
  scheduledReconnect (onClose (disconnect c).1 code reason).2
    = Some (reconnectInterval c) ∧
  GetAuthToken ∈ (reconnectTimer (onClose (disconnect c).1 code reason).1).2.
Proof.
  intros Hauto Hfail. unfold onClose. fold (authFailure code reason).
  rewrite Hfail. cbn [fst snd].
  destruct (disconnect_frame c) as (_ & Hint & _ & Hauto').
  rewrite Hauto', Hauto, Hint. split; [done|].
  unfold reconnectTimer, disconnect, connect, connect_begin.
  destruct (socket c) as [[]|] eqn:Hs; simpl; rewrite ?Hs; simpl; set_solver.
Qed.

Lemma disconnect_is_undone_by_reconnect_witness :
  scheduledReconnect (onClose (disconnect open_client).1 1005 None).2 = Some 5000%Q.
Proof.
  refine (proj1 (disconnect_is_undone_by_reconnect open_client 1005 None _ _));
    reflexivity.
Defined.

(** ** The cooldown as text *)

Lemma ceil_div_1000 (r : Z) :
  1000 * (ceil_div r 1000 - 1) < r ≤ 1000 * ceil_div r 1000.
Proof.
  unfold ceil_div.
  pose proof (Z.div_mod (- r) 1000 ltac:(lia)) as Hdm.
  pose proof (Z.mod_pos_bound (- r) 1000 ltac:(lia)) as Hm.
  lia.
Qed.

(** X15.  [getFormattedCooldownTime()] is ["Available now"] exactly when
    [canCheckIn()] is true.  Otherwise it is ["<m>m <s>s"] for the
    remaining time rounded up to the whole second: [s] is between 0 and
    59, and [60 m + s] seconds is at least the remaining time and less than
    a second more. *)
Theorem formatted_cooldown_rounds_up (c : WebSocketClient) (now : Z) :
  (getFormattedCooldownTime c now = js "Available now" ↔ canCheckIn c now = true) ∧
  (canCheckIn c now = false →
   ∃ m s,
     getFormattedCooldownTime c now
       = numberToString m ++ js "m " ++ numberToString s ++ js "s" ∧
     0 ≤ m ∧ 0 ≤ s < 60 ∧
     1000 * (60 * m + s - 1) < getRemainingCooldownTime c now ≤ 1000 * (60 * m + s)).
Proof.
  assert (getRemainingCooldownTime c now ≤ 0 ↔ canCheckIn c now = true) as Hrem.
  { unfold canCheckIn, getRemainingCooldownTime.
    case_bool_decide; split; intros; [done | lia | lia | done]. }
  split.
  - unfold getFormattedCooldownTime. case_bool_decide as Hle.
    + split; [intros _; by apply Hrem | done].
    + split; [|intros Hcan; by apply Hrem in Hcan].
      intros Heq. apply (f_equal last) in Heq.
      change (js "s") with [115%N] in Heq.
      rewrite !app_assoc, last_snoc in Heq. by vm_compute in Heq.
  - intros Hcan. unfold getFormattedCooldownTime.
    rewrite bool_decide_eq_false_2.
    2:{ intros Hle. apply Hrem in Hle. congruence. }
    assert (0 < getRemainingCooldownTime c now) as Hpos.
    { destruct (decide (getRemainingCooldownTime c now ≤ 0)) as [Hle|]; [|lia].
      apply Hrem in Hle. congruence. }
    pose proof (ceil_div_1000 (getRemainingCooldownTime c now)) as Hceil.
    set (t := ceil_div (getRemainingCooldownTime c now) 1000) in *.
    exists (t / 60), (t mod 60).
    pose proof (Z.div_mod t 60 ltac:(lia)) as Hdm.
    pose proof (Z.mod_pos_bound t 60 ltac:(lia)) as Hm.
    assert (0 ≤ t / 60) by (apply Z.div_pos; lia).
    split_and!; [done | done | lia | lia | lia | lia].
Qed.

(** ** What is sent *)

Section SendingFacts.

Variable getTime : jsstring → option Z.
Variable toISOString : Z → jsstring.
Variable JSON_stringify : CleanMessage → jsstring.
Variable hmac_sha256_hex : jsstring → jsstring → jsstring.
Variable config : Config.

Local Abbreviation send :=
  (sendCheckIn getTime toISOString JSON_stringify hmac_sha256_hex config).

(** X16.  A check-in that goes out on an open socket carries a signature
    that verifies: signing the message as sent, token and signature
    included, at the signing instant gives the signature and the signing
    timestamp it carries.  The echo handed to the local listeners has the
    user, tags, text, timestamp, avatar and snippet of the message sent,
    and the client holds an entry for the user afterwards. *)
Theorem sent_checkin_verifies_and_is_echoed (c : WebSocketClient) (now : Z)
    (clock : SendClock) (token : option jsstring) (name : jsstring)
    (tagList : list jsstring) (text randomSnippet : jsstring) :
  canCheckIn c now = true →
  socket c = Some OPEN →
  ∃ sent echo rest,
    (send c now clock token name tagList text randomSnippet).1.2
      = SocketSend sent :: SetTimeout (CbLocalEcho echo) 500 :: rest ∧
    ci_token sent = token ∧
    (ci_signature sent, ci_signatureTimestamp sent)
      = (Some (signMessage JSON_stringify hmac_sha256_hex config sent
                 (at_signature clock)).1,
         Some (signMessage JSON_stringify hmac_sha256_hex config sent
                 (at_signature clock)).2) ∧
    toCheckInData echo =
      {| cd_username := ci_username sent; cd_tags := ci_tags sent;
         cd_message := ci_message sent; cd_timestamp := ci_timestamp sent;
         cd_avatarUrl := ci_avatarUrl sent; cd_snippet := ci_snippet sent |} ∧
    username echo = name ∧
    is_Some (entryOf username name
               (allReceivedCheckIns
                  (send c now clock token name tagList text randomSnippet).1.1)).
Proof.
  intros Hcan Hopen.
  unfold sendCheckIn, sendCheckIn_withToken. rewrite Hcan. cbn [negb].
  rewrite bool_decide_eq_true_2 by done.
  unfold signMessage. cbn [fst snd].
  eexists _, _, _. split_and!; [reflexivity | done | done | done | done |].
  cbn [allReceivedCheckIns set_lastCheckInTime set_allReceivedCheckIns].
  rewrite storeCheckIn_upsert.
  match goal with
  | |- is_Some (entryOf _ _ (upsert _ _ _ ?echo)) =>
      exact (upsert_has_key username (λ x, getTime (timestamp x)) _ echo)
  end.
Qed.

End SendingFacts.

Lemma sent_checkin_verifies_and_is_echoed_witness :
  ∃ sent echo rest,
    (sendCheckIn isoTime isoString demo_stringify demo_hmac demo_config
       open_client 1714564799000 demo_clock (Some (js "token")) (js "alice")
       [js "rust"] long_text (js "snippet")).1.2
      = SocketSend sent :: SetTimeout (CbLocalEcho echo) 500 :: rest ∧
    message echo = js "012345678901234567890123456789012345678901" ∧
    timestamp echo = js "2024-05-01T12:00:00.000Z".
Proof.
  destruct (sent_checkin_verifies_and_is_echoed isoTime isoString demo_stringify
              demo_hmac demo_config open_client 1714564799000 demo_clock
              (Some (js "token")) (js "alice") [js "rust"] long_text (js "snippet")
              eq_refl eq_refl) as (sent & echo & rest & Heff & _).
  vm_compute in Heff. injection Heff as <- <- <-.
  eexists _, _, _. split_and!; reflexivity.
Defined.

(** ** Worked examples of the further properties *)

Lemma added_file_is_most_recent_witness :
  FileHistoryTracker.addFile [js "/a.ts"; js "/b.py"] (js "/a.ts")
    = [js "/b.py"; js "/a.ts"] ∧
  last (FileHistoryTracker.getRecentFiles
          (FileHistoryTracker.addFile [js "/a.ts"; js "/b.py"] (js "/a.ts")))
    = Some (js "/a.ts").
Proof.
  split; [reflexivity|].
  refine (proj1 (added_file_is_most_recent [js "/a.ts"; js "/b.py"] (js "/a.ts") _ _)).
  - refine (bool_decide_unpack _ _). by vm_compute.
  - simpl. lia.
Defined.

Lemma thirty_first_file_evicts_oldest_witness :
  length thirty_files = 30%nat ∧
  FileHistoryTracker.addFile thirty_files (js "/src/new.rs")
    = drop 1 thirty_files ++ [js "/src/new.rs"].
Proof.
  split; [reflexivity|].
  apply thirty_first_file_evicts_oldest.
  - refine (bool_decide_unpack _ _). by vm_compute.
  - reflexivity.
  - refine (bool_decide_unpack _ _). by vm_compute.
Defined.

Lemma active_tags_are_few_and_distinct_witness :
  getActiveFileTags demo_extname demo_toLowerCase demo_editors demo_recentFiles
    = Some [js "typescriptreact"; js "react"; js "typescript"] ∧
  (length [js "typescriptreact"; js "react"; js "typescript"] ≤ 3)%nat.
Proof.
  split; [reflexivity|].
  refine (proj1 (active_tags_are_few_and_distinct demo_extname demo_toLowerCase
                   demo_editors demo_recentFiles _ _)).
  reflexivity.
Defined.

Lemma provider_keeps_latest_arrivals_witness :
  CheckInProvider.addCheckIns []
    [provider_checkIn "alice" "2024-05-01T09:00:00.000Z" "standup";
     provider_checkIn "bob" "2024-05-01T11:00:00.000Z" "deploy";
     provider_checkIn "alice" "2024-05-01T12:00:00.000Z" "lunch"]
  = take 100
      (reverse
         [provider_checkIn "alice" "2024-05-01T09:00:00.000Z" "standup";
          provider_checkIn "bob" "2024-05-01T11:00:00.000Z" "deploy";
          provider_checkIn "alice" "2024-05-01T12:00:00.000Z" "lunch"]).
Proof.
  apply provider_keeps_latest_arrivals.
  refine (bool_decide_unpack _ _). by vm_compute.
Defined.

Lemma view_list_invariants_witness :
  (length (checkIns (addCheckIns isoTime newSecondaryCheckInView
                       (toCheckInData <$> hundred ++ [newcomer; member 3]))) ≤ 100)%nat.
Proof.
  refine (proj1 (proj2 (view_list_invariants isoTime newSecondaryCheckInView
                          (toCheckInData <$> hundred ++ [newcomer; member 3]) _ _ _))).
  - constructor.
  - simpl. lia.
  - constructor.
Defined.

Lemma view_mirrors_client_witness :
  checkIns (addCheckIns isoTime newSecondaryCheckInView
              (toCheckInData <$> [alice_0900; bob_1100; alice_1200]))
  = toCheckInData <$> storeCheckIns isoTime [] [alice_0900; bob_1100; alice_1200].
Proof.
  apply (view_mirrors_client isoTime [] newSecondaryCheckInView).
  - reflexivity.
  - vm_compute. lia.
Defined.
